(** * ImagePerturbEnv: a shallow embedding of [src/env.py]

    The environment of [src/env.py] holds an image tensor drawn from a data
    loader, lets an agent zero one pixel per [step], scores the step with
    [compute_reward] and starts a new episode through [reset] once the
    attack budget is used up.

    Modelling choices, all on the side of the data:
    - Python integers are [Z]; [divmod] is floor division, which is what
      [Z.div] and [Z.modulo] compute for the divisors met here, with the
      [ZeroDivisionError] of a zero divisor written out. An integer used
      as an index of a tensor is unpacked into a signed 64-bit integer:
      the item assignment of [step] raises torch's overflow error, not an
      [IndexError], on an index outside that range.
    - A tensor is its 4-d shape (batch, channel, height, width), as the
      comment of [__init__] has it, with its pixels in row-major order.
      Pixel intensities are exact rationals ([Qc]); the only operations the
      environment performs on them (copy, store 0, subtract and test for
      non-zero) are exact on the floating-point values they stand for.
    - Tensors are objects: the heap is a list of tensors and a reference is
      an index into it, so that [clone], in-place item assignment and the
      identity of the object held in [self.image] are all visible.
    - Probabilities and rewards are real numbers ([R]); the classifier is a
      fixed function from a tensor to its logits (one row per batch item).
      The formula of the reward is evaluated exactly; that a float64 is
      finite only below [2^1024] is stated apart, as
      [reward_in_float64_range], where a property depends on it.
    - A call either returns or raises, and in both cases leaves a state
      behind: [M A] is a state monad over the environment whose result is
      [Ok] or [Raise]. *)

From Stdlib Require Import ZArith QArith Qcanon Reals Lra Lia.
From stdpp Require Import base numbers list.

Open Scope Z_scope.

(** ** Exceptions and results *)

Inductive Exn : Set :=
  | ZeroDivisionError
  | IndexError
  | StopIteration
  | EmptyDatasetError
  | ShapeMismatch   (* torch's RuntimeError on operands of different shapes *)
  | OverflowUnpackingLong
                    (* torch's "Overflow when unpacking long" on an index
                       that does not fit a signed 64-bit integer (a
                       ValueError; a RuntimeError in older releases) *)
  | DanglingRef.    (* a reference outside the heap: never met from Python *)

Inductive Result (A : Type) : Type :=
  | Ok (a : A)
  | Raise (e : Exn).
Arguments Ok {A} a.
Arguments Raise {A} e.

Definition is_ok {A} (r : Result A) : bool :=
  match r with Ok _ => true | Raise _ => false end.

(** ** Python integer helpers *)

(** [divmod(a, b)] on Python integers. *)
Definition py_divmod (a b : Z) : Result (Z * Z) :=
  if b =? 0 then Raise ZeroDivisionError else Ok (a / b, a mod b).

(** Index normalisation of a sequence of length [n]: [0 <= i < n] is
    itself, [-n <= i < 0] counts from the end, anything else is out of
    range. *)
Definition py_index (i : Z) (n : nat) : option nat :=
  if (0 <=? i) && (i <? Z.of_nat n) then Some (Z.to_nat i)
  else if (- Z.of_nat n <=? i) && (i <? 0) then Some (Z.to_nat (i + Z.of_nat n))
  else None.

#[global] Instance Result_ret : MRet Result := λ A a, Ok a.

#[global] Instance Result_bind : MBind Result := λ A B f r,
  match r with Ok a => f a | Raise e => Raise e end.

(** ** Tensors *)

Record Shape : Set := mkShape { dim0 : nat; dim1 : nat; dim2 : nat; dim3 : nat }.

Record Tensor : Set := mkTensor { t_shape : Shape; t_data : list Qc }.

Definition numel (s : Shape) : nat := (dim0 s * dim1 s * dim2 s * dim3 s)%nat.

(** Row-major position of the element [b, c, x, y]. *)
Definition offset (s : Shape) (b c x y : nat) : nat :=
  (((b * dim1 s + c) * dim2 s + x) * dim3 s + y)%nat.

#[global] Instance Shape_eq_dec : EqDecision Shape.
Proof. solve_decision. Defined.

#[global] Instance Tensor_eq_dec : EqDecision Tensor.
Proof. solve_decision. Defined.

(** A Python integer that torch can unpack into its index type, a signed
    64-bit integer. *)
Definition fits_int64 (i : Z) : bool := (- 2 ^ 63 <=? i) && (i <? 2 ^ 63).

(** One integer index of a tensor subscript against the dimension it
    selects from. torch unpacks the Python integer into an int64, which
    fails with "Overflow when unpacking long" when it does not fit, and
    then normalises it against the dimension, which fails with
    [IndexError] when it is out of range. The dimensions of a tensor are
    int64 themselves, so an index in range always fits: the unpacking
    can fail only on an index that is out of range as well. *)
Definition tensor_index (i : Z) (n : nat) : Result nat :=
  match py_index i n with
  | Some k => Ok k
  | None => Raise (if fits_int64 i then IndexError else OverflowUnpackingLong)
  end.

(** [t[i0, i1, i2, i3]]: the indices are taken from left to right, each
    against its own dimension; the first one that fails decides the
    exception. *)
Definition tensor_locate (s : Shape) (i0 i1 i2 i3 : Z) : Result nat :=
  b ← tensor_index i0 (dim0 s);
  c ← tensor_index i1 (dim1 s);
  x ← tensor_index i2 (dim2 s);
  y ← tensor_index i3 (dim3 s);
  mret (offset s b c x y).

(** [t[i0, i1, i2, i3] = v] on the value of the tensor. *)
Definition tensor_setitem (t : Tensor) (i0 i1 i2 i3 : Z) (v : Qc) : Result Tensor :=
  k ← tensor_locate (t_shape t) i0 i1 i2 i3;
  mret (mkTensor (t_shape t) (<[k := v]> (t_data t))).

(** [a - b], elementwise, for operands of one shape (the only case the
    environment produces: one operand is a clone of the other). Operands
    of different shapes, which torch broadcasts where it can, all raise
    here. *)
Definition tensor_sub (a b : Tensor) : Result Tensor :=
  if decide (t_shape a = t_shape b)
  then Ok (mkTensor (t_shape a) (zip_with Qcminus (t_data a) (t_data b)))
  else Raise ShapeMismatch.

(** [torch.nonzero(t).size(0)]: the number of non-zero elements. *)
Definition count_nonzero (t : Tensor) : nat :=
  length (filter (λ v : Qc, v ≠ 0%Qc) (t_data t)).

(** The decoding of an action in [step]:
    [channel, temp = divmod(action, image_shape[2] * image_shape[3])] and
    [x, y = divmod(temp, image_shape[3])]. *)
Definition decode_action (shape : Shape) (action : Z) : Result (Z * Z * Z) :=
  '(channel, temp) ← py_divmod action (Z.of_nat (dim2 shape) * Z.of_nat (dim3 shape));
  '(x, y) ← py_divmod temp (Z.of_nat (dim3 shape));
  mret (channel, x, y).

(** The inverse formula: [channel * H * W + row * W + col]. *)
Definition encode_action (shape : Shape) (channel x y : Z) : Z :=
  channel * Z.of_nat (dim2 shape) * Z.of_nat (dim3 shape)
  + x * Z.of_nat (dim3 shape) + y.

(** [total_actions] of [__init__]. *)
Definition total_actions (shape : Shape) : Z :=
  Z.of_nat (dim1 shape) * Z.of_nat (dim2 shape) * Z.of_nat (dim3 shape).

(** ** The classifier's output *)

Open Scope R_scope.

Definition Rsum (l : list R) : R := foldr Rplus 0 l.

(** [F.softmax(row)] in exact arithmetic. *)
Definition softmax_row (row : list R) : list R :=
  (λ x, exp x / Rsum (exp <$> row)) <$> row.

(** [F.softmax(out, dim=1)]. *)
Definition softmax (out : list (list R)) : list (list R) := softmax_row <$> out.

(** [F.softmax(out, dim=1)[0][k].item()]. *)
Definition softmax_item (out : list (list R)) (k : Z) : Result R :=
  match softmax out !! 0%nat with
  | None => Raise IndexError
  | Some row =>
      match py_index k (length row) with
      | None => Raise IndexError
      | Some j => match row !! j with Some p => Ok p | None => Raise IndexError end
      end
  end.

Close Scope R_scope.

(** ** Iterators *)

(** The iterator protocol: [next(it)] returns an (image, label) pair or
    raises, and leaves the iterator in a new state either way. *)
Class PyIterator (I : Type) := py_next : I → Result (Tensor * Z) * I.

(** [iter(d)]. *)
Class PyIterable (D I : Type) := py_iter : D → I.

(** A one-pass iterator over a finite loader: the items still to come. *)
Record OnePass : Set := mkOnePass { remaining : list (Tensor * Z) }.

#[global] Instance OnePass_next : PyIterator OnePass := λ it,
  match remaining it with
  | [] => (Raise StopIteration, it)
  | x :: rest => (Ok x, mkOnePass rest)
  end.

(** A finite loader (a [DataLoader] over a dataset): [iter] starts a new
    pass over its batches. *)
Record FiniteLoader : Set := mkFiniteLoader { batches : list (Tensor * Z) }.

#[global] Instance FiniteLoader_iter : PyIterable FiniteLoader OnePass :=
  λ d, mkOnePass (batches d).

(** Modelled from the spec: the endless loader ([EndlessDataLoader] of
    [src/utils.py], imported by [src/train.py] and not among the sources).
    It wraps a finite loader and holds an iterator over it; [next] hands
    out the next pair, and on exhaustion re-acquires a fresh iterator over
    the same loader and hands out its first pair; on an empty dataset the
    draw fails with [EmptyDatasetError]. *)
Record EndlessDataLoader : Set :=
  mkEndless { wrapped : FiniteLoader; iterator : OnePass }.

Definition EndlessDataLoader_new (d : FiniteLoader) : EndlessDataLoader :=
  mkEndless d (py_iter d).

#[global] Instance EndlessDataLoader_next : PyIterator EndlessDataLoader := λ e,
  match py_next (iterator e) with
  | (Ok x, it') => (Ok x, mkEndless (wrapped e) it')
  | (Raise StopIteration, _) =>
      match py_next (py_iter (wrapped e) : OnePass) with
      | (Ok x, it') => (Ok x, mkEndless (wrapped e) it')
      | (Raise _, it') => (Raise EmptyDatasetError, mkEndless (wrapped e) it')
      end
  | (Raise exn, it') => (Raise exn, mkEndless (wrapped e) it')
  end.

#[global] Instance EndlessDataLoader_iter :
  PyIterable EndlessDataLoader EndlessDataLoader := λ e, e.

(** [n] consecutive draws from an iterator: the pairs drawn, or the first
    exception. *)
Fixpoint draw_n {I} `{!PyIterator I} (n : nat) (it : I)
  : Result (list (Tensor * Z)) * I :=
  match n with
  | O => (Ok [], it)
  | S n' =>
      match py_next it with
      | (Ok x, it') =>
          match draw_n n' it' with
          | (Ok xs, it'') => (Ok (x :: xs), it'')
          | (Raise e, it'') => (Raise e, it'')
          end
      | (Raise e, it') => (Raise e, it')
      end
  end.

(** ** The environment object *)

(** A reference to a tensor object: its index in the heap. *)
Definition ref : Set := nat.

(** [gym.spaces.Discrete(n)] and [gym.spaces.Box(low, high, shape)]. *)
Record Discrete : Set := mkDiscrete { discrete_n : Z }.
Record Box : Set := mkBox { box_low : Z; box_high : Z; box_shape : Shape }.

(** The [info] dictionary of [step]: always [{}]. *)
Inductive Info : Set := EmptyInfo.

(** The attributes of [self], together with the heap of tensor objects
    they point into. *)
Record ImagePerturbEnv (I : Type) : Type := mkEnv {
  heap : list Tensor;
  dataloader : I;
  image : ref;
  target_class : Z;
  original_image : ref;
  image_shape : Shape;
  action_space : Discrete;
  observation_space : Box;
  attack_budget : Z;
  lambda_ : R;
  current_attack_count : Z
}.
Arguments mkEnv {I}.
Arguments heap {I}.
Arguments dataloader {I}.
Arguments image {I}.
Arguments target_class {I}.
Arguments original_image {I}.
Arguments image_shape {I}.
Arguments action_space {I}.
Arguments observation_space {I}.
Arguments attack_budget {I}.
Arguments lambda_ {I}.
Arguments current_attack_count {I}.

Section Setters.
Context {I : Type}.
Implicit Type self : ImagePerturbEnv I.

Definition set_heap (h : list Tensor) self :=
  mkEnv h (dataloader self) (image self) (target_class self)
    (original_image self) (image_shape self) (action_space self)
    (observation_space self) (attack_budget self) (lambda_ self)
    (current_attack_count self).

Definition set_dataloader (it : I) self :=
  mkEnv (heap self) it (image self) (target_class self)
    (original_image self) (image_shape self) (action_space self)
    (observation_space self) (attack_budget self) (lambda_ self)
    (current_attack_count self).

Definition set_image (r : ref) self :=
  mkEnv (heap self) (dataloader self) r (target_class self)
    (original_image self) (image_shape self) (action_space self)
    (observation_space self) (attack_budget self) (lambda_ self)
    (current_attack_count self).

Definition set_target_class (k : Z) self :=
  mkEnv (heap self) (dataloader self) (image self) k
    (original_image self) (image_shape self) (action_space self)
    (observation_space self) (attack_budget self) (lambda_ self)
    (current_attack_count self).

Definition set_original_image (r : ref) self :=
  mkEnv (heap self) (dataloader self) (image self) (target_class self)
    r (image_shape self) (action_space self)
    (observation_space self) (attack_budget self) (lambda_ self)
    (current_attack_count self).

Definition set_current_attack_count (n : Z) self :=
  mkEnv (heap self) (dataloader self) (image self) (target_class self)
    (original_image self) (image_shape self) (action_space self)
    (observation_space self) (attack_budget self) (lambda_ self) n.
End Setters.

(** ** The monad of method bodies *)

Definition M (I A : Type) : Type := ImagePerturbEnv I → Result A * ImagePerturbEnv I.

#[global] Instance M_ret {I} : MRet (M I) := λ A a self, (Ok a, self).

#[global] Instance M_bind {I} : MBind (M I) := λ A B f m self,
  match m self with
  | (Ok a, self') => f a self'
  | (Raise e, self') => (Raise e, self')
  end.

Section Primitives.
Context {I : Type} `{!PyIterator I}.

Definition gets {A} (f : ImagePerturbEnv I → A) : M I A := λ self, (Ok (f self), self).

Definition modify (f : ImagePerturbEnv I → ImagePerturbEnv I) : M I () :=
  λ self, (Ok (), f self).

Definition lift {A} (r : Result A) : M I A := λ self, (r, self).

(** The value of the object behind a reference. *)
Definition deref (r : ref) : M I Tensor := λ self,
  match heap self !! r with
  | Some t => (Ok t, self)
  | None => (Raise DanglingRef, self)
  end.

(** A new object holding [t]. *)
Definition alloc (t : Tensor) : M I ref := λ self,
  (Ok (length (heap self)), set_heap (heap self ++ [t]) self).

(** [r.clone()]: a new object with the same value. *)
Definition clone (r : ref) : M I ref := t ← deref r; alloc t.

(** [r[i0, i1, i2, i3] = v]: the object is updated in place. *)
Definition setitem (r : ref) (i0 i1 i2 i3 : Z) (v : Qc) : M I () :=
  t ← deref r;
  t' ← lift (tensor_setitem t i0 i1 i2 i3 v);
  modify (λ self, set_heap (<[r := t']> (heap self)) self).

(** [next(self.dataloader)]: the loader collates the batch into a new
    tensor object. *)
Definition next_dataloader : M I (ref * Z) := λ self,
  match py_next (dataloader self) with
  | (Ok (t, label), it') =>
      (Ok (length (heap self), label),
       set_heap (heap self ++ [t]) (set_dataloader it' self))
  | (Raise e, it') => (Raise e, set_dataloader it' self)
  end.
End Primitives.

(** ** The methods of [ImagePerturbEnv] *)

Definition default_attack_budget : Z := 20.
Definition default_lambda : R := 1%R.

Section Methods.
Context {I : Type} `{!PyIterator I}.

(** [self.model]: the frozen classifier, from the value of a tensor to
    its logits, one row per batch item. *)
Variable model : Tensor → list (list R).

(** [ImagePerturbEnv.reset]. *)
Definition reset : M I ref :=
  '(img, label) ← next_dataloader;
  modify (λ self, set_target_class label (set_image img self));;
  original ← clone img;
  modify (set_original_image original);;
  modify (set_current_attack_count 0);;
  gets image.

(** [ImagePerturbEnv.compute_reward], in exact arithmetic: the value
    returned is the real number the floating-point expression of the
    code stands for. Whether that expression is finite in float64 is
    the separate question of [reward_in_float64_range]. *)
Definition compute_reward (original_image perturbed_image : ref) : M I R :=
  original ← deref original_image;
  perturbed ← deref perturbed_image;
  target ← gets target_class;
  original_prob ← lift (softmax_item (model original) target);
  perturbed_prob ← lift (softmax_item (model perturbed) target);
  difference ← lift (tensor_sub perturbed original);
  let sparsity := count_nonzero difference in
  lam ← gets lambda_;
  mret ((original_prob - perturbed_prob) * exp (- lam * INR sparsity))%R.

(** [ImagePerturbEnv.step]. *)
Definition step (action : Z) : M I (ref * R * bool * Info) :=
  modify (λ self, set_current_attack_count (current_attack_count self + 1) self);;
  self_image ← gets image;
  perturbed_image ← clone self_image;
  shape ← gets image_shape;
  '(channel, x, y) ← lift (decode_action shape action);
  setitem perturbed_image 0 channel x y 0%Qc;;
  reward ← compute_reward self_image perturbed_image;
  count ← gets current_attack_count;
  budget ← gets attack_budget;
  let done := bool_decide (budget ≤ count) in
  (if done then _ ← reset; mret () else mret ());;
  modify (set_image perturbed_image);;
  mret (perturbed_image, reward, done, EmptyInfo).

(** [ImagePerturbEnv.__init__], run on the heap [h] with the loader
    [loader]: the new object, unless drawing the first image raises. *)
Definition init {D} `{!PyIterable D I} (loader : D) (attack_budget : Z)
    (lambda_ : R) (h : list Tensor) : Result (ImagePerturbEnv I) :=
  match py_next (py_iter loader : I) with
  | (Raise e, _) => Raise e
  | (Ok (t, label), it') =>
      let image := length h in
      let h1 := h ++ [t] in
      let original_image := length h1 in
      let h2 := h1 ++ [t] in
      let image_shape := t_shape t in
      Ok (mkEnv h2 it' image label original_image image_shape
            (mkDiscrete (total_actions image_shape)) (mkBox 0 1 image_shape)
            attack_budget lambda_ 0)
  end.

(** [n] calls to [reset] in a row, stopping at the first that raises. *)
Fixpoint resets (n : nat) : M I (list ref) :=
  match n with
  | O => mret []
  | S n' => r ← reset; rs ← resets n'; mret (r :: rs)
  end.

(** A sequence of [step] calls, stopping at the first that raises. *)
Fixpoint steps (actions : list Z) : M I (list (ref * R * bool * Info)) :=
  match actions with
  | [] => mret []
  | a :: rest => r ← step a; rs ← steps rest; mret (r :: rs)
  end.
End Methods.

(** ** A small concrete world *)

Module Demo.
(** A 1x1x2x2 image with every pixel at 1/2, and one with every pixel
    at 0. *)
Definition half : Qc := Q2Qc (1 # 2).
Definition grey : Tensor := mkTensor (mkShape 1 1 2 2) [half; half; half; half].
Definition black : Tensor := mkTensor (mkShape 1 1 2 2) [0%Qc; 0%Qc; 0%Qc; 0%Qc].
Definition white : Tensor := mkTensor (mkShape 1 1 2 2) [1%Qc; 1%Qc; 1%Qc; 1%Qc].

(** A classifier with two classes and constant logits. *)
Definition flat_model : Tensor → list (list R) := λ _, [[0%R; 0%R]].

Definition loader : FiniteLoader := mkFiniteLoader [(grey, 0); (white, 1)].
Definition endless : EndlessDataLoader := EndlessDataLoader_new loader.

Definition env0 (budget : Z) : Result (ImagePerturbEnv EndlessDataLoader) :=
  init endless budget default_lambda [].

(** The environment right after construction on [endless], written
    out: object 0 is the image drawn, object 1 its snapshot. *)
Definition shape : Shape := mkShape 1 1 2 2.
Definition env_grey (budget : Z) : ImagePerturbEnv EndlessDataLoader :=
  mkEnv [grey; grey] (mkEndless loader (mkOnePass [(white, 1)])) 0%nat 0 1%nat
    shape (mkDiscrete 4) (mkBox 0 1 shape) budget default_lambda 0.

(** [grey] with its first pixel zeroed. *)
Definition grey_0 : Tensor := mkTensor shape [0%Qc; half; half; half].

(** The same on a loader whose first image is black. *)
Definition dark_loader : FiniteLoader := mkFiniteLoader [(black, 0); (white, 1)].
Definition env_black (budget : Z) : ImagePerturbEnv EndlessDataLoader :=
  mkEnv [black; black] (mkEndless dark_loader (mkOnePass [(white, 1)])) 0%nat 0
    1%nat shape (mkDiscrete 4) (mkBox 0 1 shape) budget default_lambda 0.

(** The environment [env_grey 1] after one step with action 0, which
    ends the episode. *)
Definition env_after_done : ImagePerturbEnv EndlessDataLoader :=
  mkEnv [grey; grey; grey_0; white; white] (mkEndless loader (mkOnePass []))
    2%nat 1 4%nat shape (mkDiscrete 4) (mkBox 0 1 shape) 1 default_lambda 0.

(** A loader over an empty dataset. *)
Definition empty_loader : FiniteLoader := mkFiniteLoader [].

End Demo.


(** ** Vocabulary of the properties *)

(** The element [b, c, x, y] of a tensor. *)
Definition pixel (t : Tensor) (b c x y : nat) : option Qc :=
  t_data t !! offset (t_shape t) b c x y.

Definition in_bounds (s : Shape) (b c x y : nat) : Prop :=
  (b < dim0 s ∧ c < dim1 s ∧ x < dim2 s ∧ y < dim3 s)%nat.

(** The flat positions at which two tensors hold different pixels, and
    their number: the sparsity of the spec. *)
Definition differing_positions (a b : Tensor) : list nat :=
  filter (λ k, t_data a !! k ≠ t_data b !! k) (seq 0 (length (t_data a))).

Definition sparsity (a b : Tensor) : nat := length (differing_positions a b).

(** The classifier answers every tensor with at least one row of [K]
    logits. *)
Definition classifier_ok (model : Tensor → list (list R)) (K : nat) : Prop :=
  ∀ t, length <$> (model t !! 0%nat) = Some K.

(** The environment holds a well-formed image of the recorded shape, the
    shape has a batch item and a non-empty plane, and the target class is
    a label of the classifier. *)
Definition env_ok {I} (K : nat) (self : ImagePerturbEnv I) : bool :=
  match heap self !! image self with
  | Some t =>
      bool_decide (t_shape t = image_shape self)
      && bool_decide (length (t_data t) = numel (t_shape t))
  | None => false
  end
  && bool_decide (0 < dim0 (image_shape self))%nat
  && bool_decide (0 < dim2 (image_shape self))%nat
  && bool_decide (0 < dim3 (image_shape self))%nat
  && bool_decide (0 ≤ target_class self < Z.of_nat K).

(** The next draw from the environment's loader succeeds. *)
Definition loader_ready {I} `{!PyIterator I} (self : ImagePerturbEnv I) : bool :=
  is_ok (fst (py_next (dataloader self))).

(** The [done] flag of a result of [step]. *)
Definition done_of (r : ref * R * bool * Info) : bool := snd (fst r).

(** The state after a [step] that returns while the episode goes on, given
    the perturbed tensor [t']. *)
Definition after_step {I} (self : ImagePerturbEnv I) (t' : Tensor) : ImagePerturbEnv I :=
  set_image (length (heap self))
    (set_heap (heap self ++ [t'])
       (set_current_attack_count (current_attack_count self + 1) self)).

(** The state after a [step] that ends the episode and draws [(ti, label)],
    leaving the loader in state [it']. *)
Definition after_done {I} (self : ImagePerturbEnv I) (t' ti : Tensor)
    (label : Z) (it' : I) : ImagePerturbEnv I :=
  mkEnv (heap self ++ [t'; ti; ti]) it' (length (heap self)) label
    (length (heap self) + 2)%nat (image_shape self) (action_space self)
    (observation_space self) (attack_budget self) (lambda_ self) 0.

(** The reward of a step from the tensor [t] to the tensor [t'] with the
    probabilities [p0] before and [p1] after, as [compute_reward] computes
    it. *)
Definition reward_run {I} (self : ImagePerturbEnv I) (t t' : Tensor) (p0 p1 : R) : R :=
  ((p0 - p1) * exp (- lambda_ self
      * INR (count_nonzero
               (mkTensor (t_shape t') (zip_with Qcminus (t_data t') (t_data t))))))%R.

(** The tensor [t] with its element [0, c, x, y] set to zero. *)
Definition zero_pixel (t : Tensor) (c x y : nat) : Tensor :=
  mkTensor (t_shape t) (<[offset (t_shape t) 0 c x y := 0%Qc]> (t_data t)).

(** Every element of [t'] other than [0, c, x, y] is the one of [t], and
    that one is zero. *)
Definition perturbs_at_most (t t' : Tensor) (c x y : nat) : Prop :=
  t_shape t' = t_shape t
  ∧ pixel t' 0 c x y = Some 0%Qc
  ∧ ∀ b' c' x' y', in_bounds (t_shape t) b' c' x' y' →
      (b', c', x', y') ≠ (0%nat, c, x, y) →
      pixel t' b' c' x' y' = pixel t b' c' x' y'.

(** The same, and the two tensors do differ at [0, c, x, y]. *)
Definition perturbs_exactly (t t' : Tensor) (c x y : nat) : Prop :=
  perturbs_at_most t t' c x y ∧ pixel t' 0 c x y ≠ pixel t 0 c x y.

(** What a call leaves alone when it changes at most the held image and
    the step counter: every other attribute is the same, and every tensor
    object that existed before the call still holds the same value (the
    heap only grows). *)
Definition step_frame {I} (self self' : ImagePerturbEnv I) : Prop :=
  original_image self' = original_image self
  ∧ target_class self' = target_class self
  ∧ attack_budget self' = attack_budget self
  ∧ lambda_ self' = lambda_ self
  ∧ action_space self' = action_space self
  ∧ observation_space self' = observation_space self
  ∧ image_shape self' = image_shape self
  ∧ dataloader self' = dataloader self
  ∧ heap self `prefix_of` heap self'.

(** ** The driver of [env.py] *)

Section Driver.
Context {I : Type} `{!PyIterator I}.
Variable model : Tensor → list (list R).

(** The loop of the [__main__] block of [env.py], on the actions that
    [env.action_space.sample()] returns: [step], then [reset] when the
    step reports [done]. The numpy copies the loop takes of the images
    are local values that the loop never reads; they are left out. *)
Fixpoint main_loop (samples : list Z) : M I (list (ref * R * bool * Info)) :=
  match samples with
  | [] => mret []
  | action :: rest =>
      r ← step model action;
      (if done_of r then _ ← reset; mret () else mret ());;
      rs ← main_loop rest;
      mret (r :: rs)
  end.
End Driver.

(** ** Further vocabulary *)

(** The tensor lies in the box: it has the shape of the box and every
    pixel is between its bounds. *)
Definition in_box (b : Box) (t : Tensor) : Prop :=
  t_shape t = box_shape b
  ∧ Forall (λ v : Qc, (Qc_of_Z (box_low b) ≤ v ≤ Qc_of_Z (box_high b))%Qc)
      (t_data t).

(** [t] is [t0] with some of its pixels set to zero. *)
Definition zeroed_from (t0 t : Tensor) : Prop :=
  t_shape t = t_shape t0
  ∧ length (t_data t) = length (t_data t0)
  ∧ ∀ k v, t_data t !! k = Some v → v = 0%Qc ∨ t_data t0 !! k = Some v.

(** A call changed nothing that existed: every tensor object keeps its
    value, and the shape and the spaces fixed at construction, the budget
    and lambda are the same. *)
Definition keeps_objects {I} (self self' : ImagePerturbEnv I) : Prop :=
  heap self `prefix_of` heap self'
  ∧ image_shape self' = image_shape self
  ∧ action_space self' = action_space self
  ∧ observation_space self' = observation_space self
  ∧ attack_budget self' = attack_budget self
  ∧ lambda_ self' = lambda_ self.

(** The environment reads a one-pass loader that is exhausted, at a step
    that ends the episode. *)
Definition stuck (K : nat) (self : ImagePerturbEnv OnePass) : Prop :=
  env_ok K self = true
  ∧ remaining (dataloader self) = []
  ∧ attack_budget self ≤ current_attack_count self + 1.

(** The endless loader wraps a non-empty dataset, and every label it can
    still hand out is a label of a classifier with [K] classes. *)
Definition endless_ok (K : nat) (e : EndlessDataLoader) : Prop :=
  batches (wrapped e) ≠ []
  ∧ Forall (λ d : Tensor * Z, 0 ≤ d.2 < Z.of_nat K) (batches (wrapped e))
  ∧ Forall (λ d : Tensor * Z, 0 ≤ d.2 < Z.of_nat K) (remaining (iterator e)).

(** The environment built on the plain iterator of a loader with the one
    batch [(grey, 0)], with a budget of one step: the loader is exhausted
    from the start. *)
Module DemoOnePass.
Definition single : FiniteLoader := mkFiniteLoader [(Demo.grey, 0)].
Definition env0 : Result (ImagePerturbEnv OnePass) :=
  init single 1 default_lambda [].
Definition env_exhausted : ImagePerturbEnv OnePass :=
  mkEnv [Demo.grey; Demo.grey] (mkOnePass []) 0%nat 0 1%nat Demo.shape
    (mkDiscrete 4) (mkBox 0 1 Demo.shape) 1 default_lambda 0.
End DemoOnePass.

(** ** The selection of the best run in [train.py] *)

(** The scan of [max(models, key=lambda x: models[x][1])] over the runs
    after the first: the best run so far is replaced when a later run has
    a strictly greater mean reward. *)
Fixpoint max_scan (best : nat) (best_val : Qc) (run : nat) (rest : list Qc) : nat :=
  match rest with
  | [] => best
  | val :: rest' =>
      if decide (best_val < val)%Qc
      then max_scan run val (S run) rest'
      else max_scan best best_val (S run) rest'
  end.

(** [best_run = max(models, key=lambda x: models[x][1])], where [models]
    maps the runs [0 .. k-1], in that order, to
    [(model, mean_reward, std_reward)]; [None] stands for the
    [ValueError] of [max] on an empty dictionary. Mean rewards are exact
    rationals. *)
Definition best_run {P : Type} (models : list (P * Qc * Qc)) : option nat :=
  match models with
  | [] => None
  | (_, mean_reward, _) :: rest => Some (max_scan 0 mean_reward 1 (rest.*1.*2))
  end.

(** [best_model, best_mean_reward, _ = models[best_run]]. *)
Definition best_model {P : Type} (models : list (P * Qc * Qc)) : option (P * Qc) :=
  run ← best_run models;
  '(model, mean_reward, _) ← models !! run;
  Some (model, mean_reward).

(** ** The evaluation loop of [image_classification_train.py] *)

(** The loop over [test_loader] in [train_model]: [predict] stands for
    the class [torch.max(model(images), 1)] picks for an image; a batch is
    the list of its (image, label) pairs. The pair returned is
    [(total_correct, total_samples)]. *)
Definition evaluate {Img : Type} (predict : Img → Z)
    (test_loader : list (list (Img * Z))) : Z * Z :=
  foldl (λ '(total_correct, total_samples) batch,
           (total_correct
            + Z.of_nat (length (filter (λ p : Img * Z, predict p.1 = p.2) batch)),
            total_samples + Z.of_nat (length batch)))
        (0, 0) test_loader.

(** [accuracy = total_correct / total_samples]. *)
Definition accuracy {Img : Type} (predict : Img → Z)
    (test_loader : list (list (Img * Z))) : Result Qc :=
  let '(total_correct, total_samples) := evaluate predict test_loader in
  if total_samples =? 0 then Raise ZeroDivisionError
  else Ok (Qc_of_Z total_correct / Qc_of_Z total_samples)%Qc.

(** ** The range of float64 *)




Module DemoNegativeLambda.
(** The environment constructed on [Demo.endless] with [attack_budget = 2]
    and [lambda_ = -1000], and the same after one step with action 0:
    object 2 is the perturbed image, object 0 the image before the
    step. *)
Definition env0 : ImagePerturbEnv EndlessDataLoader :=
  mkEnv [Demo.grey; Demo.grey] (mkEndless Demo.loader (mkOnePass [(Demo.white, 1)]))
    0%nat 0 1%nat Demo.shape (mkDiscrete 4) (mkBox 0 1 Demo.shape) 2 (-1000)%R 0.
Definition env : ImagePerturbEnv EndlessDataLoader :=
  mkEnv [Demo.grey; Demo.grey; Demo.grey_0]
    (mkEndless Demo.loader (mkOnePass [(Demo.white, 1)]))
    2%nat 0 1%nat Demo.shape (mkDiscrete 4) (mkBox 0 1 Demo.shape) 2 (-1000)%R 1.
End DemoNegativeLambda.

(** ** Python arithmetic *)

Lemma py_index_in (i : Z) (n : nat) :
  0 ≤ i < Z.of_nat n → py_index i n = Some (Z.to_nat i).
Proof.
  intros Hi. unfold py_index.
  destruct (Z.leb_spec 0 i), (Z.ltb_spec i (Z.of_nat n)); simpl; try lia; done.
Qed.

Lemma py_index_wrap (i : Z) (n : nat) :
  - Z.of_nat n ≤ i < 0 → py_index i n = py_index (i + Z.of_nat n) n.
Proof.
  intros Hi. rewrite (py_index_in (i + Z.of_nat n)) by lia. unfold py_index.
  destruct (Z.leb_spec 0 i); [lia|]. simpl.
  destruct (Z.leb_spec (- Z.of_nat n) i), (Z.ltb_spec i 0); simpl; try lia; done.
Qed.

Lemma py_index_out (i : Z) (n : nat) : Z.of_nat n ≤ i → py_index i n = None.
Proof.
  intros Hi. unfold py_index.
  destruct (Z.leb_spec 0 i), (Z.ltb_spec i (Z.of_nat n)), (Z.ltb_spec i 0),
    (Z.leb_spec (- Z.of_nat n) i); simpl; try lia; done.
Qed.

Lemma py_index_below (i : Z) (n : nat) : i < - Z.of_nat n → py_index i n = None.
Proof.
  intros Hi. unfold py_index.
  destruct (Z.leb_spec 0 i), (Z.ltb_spec i (Z.of_nat n)), (Z.ltb_spec i 0),
    (Z.leb_spec (- Z.of_nat n) i); simpl; try lia; done.
Qed.

Lemma tensor_index_in (i : Z) (n : nat) :
  0 ≤ i < Z.of_nat n → tensor_index i n = Ok (Z.to_nat i).
Proof. intros Hi. unfold tensor_index. by rewrite py_index_in. Qed.

Lemma tensor_index_wrap (i : Z) (n : nat) :
  - Z.of_nat n ≤ i < 0 → tensor_index i n = tensor_index (i + Z.of_nat n) n.
Proof.
  intros Hi. unfold tensor_index.
  rewrite (py_index_wrap i) by done. by rewrite py_index_in by lia.
Qed.

Lemma tensor_index_outside (i : Z) (n : nat) :
  i < - Z.of_nat n ∨ Z.of_nat n ≤ i →
  tensor_index i n
  = Raise (if fits_int64 i then IndexError else OverflowUnpackingLong).
Proof.
  intros [Hi|Hi]; unfold tensor_index.
  - by rewrite py_index_below.
  - by rewrite py_index_out.
Qed.

Lemma py_divmod_pos (a b : Z) : 0 < b → py_divmod a b = Ok (a / b, a mod b).
Proof.
  intros Hb. unfold py_divmod. destruct (Z.eqb_spec b 0); [lia|done].
Qed.

Lemma decode_action_pos (s : Shape) (a : Z) :
  (0 < dim2 s)%nat → (0 < dim3 s)%nat →
  let hw := Z.of_nat (dim2 s) * Z.of_nat (dim3 s) in
  decode_action s a =
    Ok (a / hw, (a mod hw) / Z.of_nat (dim3 s), (a mod hw) mod Z.of_nat (dim3 s)).
Proof.
  intros H2 H3 hw. unfold decode_action.
  rewrite py_divmod_pos by (subst hw; lia). simpl.
  rewrite py_divmod_pos by lia. done.
Qed.

(** ** Action decoding *)

Lemma decode_in_range (s : Shape) (a : Z) :
  0 ≤ a < total_actions s →
  ∃ c r k, decode_action s a = Ok (c, r, k)
    ∧ 0 ≤ c < Z.of_nat (dim1 s) ∧ 0 ≤ r < Z.of_nat (dim2 s)
    ∧ 0 ≤ k < Z.of_nat (dim3 s) ∧ encode_action s c r k = a.
Proof.
  unfold total_actions, encode_action. intros Ha.
  assert (0 < dim2 s)%nat as H2 by nia.
  assert (0 < dim3 s)%nat as H3 by nia.
  rewrite decode_action_pos by done.
  set (W := Z.of_nat (dim3 s)) in *. set (H := Z.of_nat (dim2 s)) in *.
  set (C := Z.of_nat (dim1 s)) in *.
  assert (0 < W) by (subst W; lia). assert (0 < H) by (subst H; lia).
  assert (0 < H * W) as Hhw by nia.
  pose proof (Z.div_mod a (H * W) ltac:(lia)) as Hdm.
  pose proof (Z.mod_pos_bound a (H * W) Hhw) as Hm.
  pose proof (Z.div_mod (a mod (H * W)) W ltac:(lia)) as Hdm'.
  pose proof (Z.mod_pos_bound (a mod (H * W)) W ltac:(lia)) as Hm'.
  eexists _, _, _. split; [reflexivity|].
  split; [split; [apply Z.div_pos; lia | apply Z.div_lt_upper_bound; nia]|].
  split; [split; [apply Z.div_pos; lia | apply Z.div_lt_upper_bound; nia]|].
  split; [lia|]. nia.
Qed.

Lemma decode_encode (s : Shape) (ch x y : Z) :
  0 ≤ ch < Z.of_nat (dim1 s) → 0 ≤ x < Z.of_nat (dim2 s) →
  0 ≤ y < Z.of_nat (dim3 s) →
  0 ≤ encode_action s ch x y < total_actions s
  ∧ decode_action s (encode_action s ch x y) = Ok (ch, x, y).
Proof.
  unfold total_actions, encode_action. intros Hc Hx Hy.
  rewrite decode_action_pos by lia.
  set (W := Z.of_nat (dim3 s)) in *. set (H := Z.of_nat (dim2 s)) in *.
  set (C := Z.of_nat (dim1 s)) in *.
  assert (0 ≤ x * W + y < H * W) as Hr.
  { assert ((x + 1) * W ≤ H * W) by (apply Z.mul_le_mono_nonneg_r; lia). nia. }
  assert (0 ≤ ch * (H * W) ∧ (ch + 1) * (H * W) ≤ C * (H * W)) as Hq.
  { split; [apply Z.mul_nonneg_nonneg; lia|].
    apply Z.mul_le_mono_nonneg_r; lia. }
  split; [lia|].
  assert ((ch * H * W + x * W + y) / (H * W) = ch) as ->.
  { symmetry. apply (Z.div_unique_pos _ _ _ (x * W + y)); lia. }
  assert ((ch * H * W + x * W + y) mod (H * W) = x * W + y) as ->.
  { symmetry. apply (Z.mod_unique_pos _ _ ch); lia. }
  assert ((x * W + y) / W = x) as ->.
  { symmetry. apply (Z.div_unique_pos _ _ _ y); lia. }
  assert ((x * W + y) mod W = y) as ->.
  { symmetry. apply (Z.mod_unique_pos _ _ x); lia. }
  done.
Qed.

(** C6. In the single-pixel decoding of [step], every action [a] in
    [0, C*H*W) decodes, through the two [divmod]s, to coordinates inside
    the image, and the inverse formula [channel*H*W + row*W + col] gives
    [a] back; conversely every in-bounds coordinate triple is the decoding
    of its encoding, which is an action in range: the decoding is a
    bijection from the action space onto the coordinate space. *)
Theorem decode_action_bijection (s : Shape) (a ch x y : Z) :
  (0 ≤ a < total_actions s →
   ∃ c r k, decode_action s a = Ok (c, r, k)
     ∧ 0 ≤ c < Z.of_nat (dim1 s) ∧ 0 ≤ r < Z.of_nat (dim2 s)
     ∧ 0 ≤ k < Z.of_nat (dim3 s) ∧ encode_action s c r k = a)
  ∧ (0 ≤ ch < Z.of_nat (dim1 s) → 0 ≤ x < Z.of_nat (dim2 s) →
     0 ≤ y < Z.of_nat (dim3 s) →
     0 ≤ encode_action s ch x y < total_actions s
     ∧ decode_action s (encode_action s ch x y) = Ok (ch, x, y)).
Proof.
  split; [apply decode_in_range | apply decode_encode].
Qed.

Lemma decode_action_bijection_witness :
  (∃ c r k, decode_action (mkShape 1 3 4 4) 29 = Ok (c, r, k)
     ∧ 0 ≤ c < 3 ∧ 0 ≤ r < 4 ∧ 0 ≤ k < 4
     ∧ encode_action (mkShape 1 3 4 4) c r k = 29)
  ∧ (0 ≤ encode_action (mkShape 1 3 4 4) 2 1 3 < 48
     ∧ decode_action (mkShape 1 3 4 4) (encode_action (mkShape 1 3 4 4) 2 1 3)
       = Ok (2, 1, 3)).
Proof.
  split.
  - apply (proj1 (decode_action_bijection (mkShape 1 3 4 4) 29 2 1 3)).
    unfold total_actions; simpl; lia.
  - apply (proj2 (decode_action_bijection (mkShape 1 3 4 4) 29 2 1 3));
      simpl; lia.
Defined.

(** ** Running the methods *)

Ltac run_monad :=
  unfold mbind, M_bind, mret, M_ret, gets, modify, lift, deref, alloc; simpl.

(** Projections of updated environments. *)
Ltac env_simpl :=
  cbn [heap dataloader image target_class original_image image_shape
       action_space observation_space attack_budget lambda_
       current_attack_count set_heap set_dataloader set_image
       set_target_class set_original_image set_current_attack_count].

(** One statement of a method body. *)
Ltac run_bind := unfold mbind at 1, M_bind at 1; env_simpl.

Section Running.
Context {I : Type} `{!PyIterator I}.
Variable model : Tensor → list (list R).
Implicit Type self : ImagePerturbEnv I.

Lemma clone_run self r t :
  heap self !! r = Some t →
  clone r self = (Ok (length (heap self)), set_heap (heap self ++ [t]) self).
Proof. intros Hr. unfold clone. run_monad. by rewrite Hr. Qed.

Lemma setitem_last_run self h t t' i0 i1 i2 i3 v :
  heap self = h ++ [t] →
  tensor_setitem t i0 i1 i2 i3 v = Ok t' →
  setitem (length h) i0 i1 i2 i3 v self = (Ok (), set_heap (h ++ [t']) self).
Proof.
  intros Hh Ht. unfold setitem. run_monad.
  rewrite Hh, list_lookup_middle by done. rewrite Ht. simpl. rewrite Hh.
  replace (length h) with (length h + 0)%nat at 1 by lia.
  by rewrite insert_app_r.
Qed.

Lemma setitem_last_raise self h t i0 i1 i2 i3 v e :
  heap self = h ++ [t] →
  tensor_setitem t i0 i1 i2 i3 v = Raise e →
  setitem (length h) i0 i1 i2 i3 v self = (Raise e, self).
Proof.
  intros Hh Ht. unfold setitem. run_monad.
  rewrite Hh, list_lookup_middle by done. by rewrite Ht.
Qed.

Lemma tensor_setitem_shape t t' i0 i1 i2 i3 v :
  tensor_setitem t i0 i1 i2 i3 v = Ok t' → t_shape t' = t_shape t.
Proof.
  unfold tensor_setitem.
  destruct (tensor_locate (t_shape t) i0 i1 i2 i3); simpl; intros [= <-]; done.
Qed.

Lemma compute_reward_run self o p to tp p0 p1 :
  heap self !! o = Some to → heap self !! p = Some tp →
  t_shape tp = t_shape to →
  softmax_item (model to) (target_class self) = Ok p0 →
  softmax_item (model tp) (target_class self) = Ok p1 →
  compute_reward model o p self =
    (Ok ((p0 - p1) * exp (- lambda_ self
           * INR (count_nonzero
                    (mkTensor (t_shape tp)
                       (zip_with Qcminus (t_data tp) (t_data to))))))%R,
     self).
Proof.
  intros Ho Hp Hs H0 H1. unfold compute_reward, tensor_sub. run_monad.
  rewrite Ho, Hp, H0, H1. by rewrite decide_True.
Qed.

Lemma reset_run self :
  reset self =
    match py_next (dataloader self) with
    | (Ok (ti, label), it') =>
        (Ok (length (heap self)),
         mkEnv (heap self ++ [ti; ti]) it' (length (heap self)) label
           (length (heap self) + 1)%nat (image_shape self)
           (action_space self) (observation_space self)
           (attack_budget self) (lambda_ self) 0)
    | (Raise e, it') => (Raise e, set_dataloader it' self)
    end.
Proof.
  unfold reset, next_dataloader, clone. run_monad.
  destruct (py_next (dataloader self)) as [[[ti label]|e] it']; simpl; [|done].
  rewrite list_lookup_middle by done. unfold set_heap; simpl.
  rewrite length_app, <- app_assoc. simpl. done.
Qed.

Lemma step_run self a t ch x y t' p0 p1 :
  heap self !! image self = Some t →
  decode_action (image_shape self) a = Ok (ch, x, y) →
  tensor_setitem t 0 ch x y 0%Qc = Ok t' →
  softmax_item (model t) (target_class self) = Ok p0 →
  softmax_item (model t') (target_class self) = Ok p1 →
  step model a self =
    if bool_decide (attack_budget self ≤ current_attack_count self + 1) then
      match py_next (dataloader self) with
      | (Ok (ti, label), it') =>
          (Ok (length (heap self), reward_run self t t' p0 p1, true, EmptyInfo),
           after_done self t' ti label it')
      | (Raise e, it') =>
          (Raise e,
           set_dataloader it'
             (set_heap (heap self ++ [t'])
                (set_current_attack_count (current_attack_count self + 1) self)))
      end
    else
      (Ok (length (heap self), reward_run self t t' p0 p1, false, EmptyInfo),
       after_step self t').
Proof.
  intros Ht Hd Hset H0 H1. unfold step.
  run_bind. unfold modify at 1. run_bind. unfold gets at 1. run_bind.
  rewrite (clone_run _ _ t) by done.
  run_bind. unfold gets at 1. run_bind. unfold lift at 1. rewrite Hd.
  run_bind. erewrite setitem_last_run; [|reflexivity|exact Hset].
  run_bind.
  assert (image self < length (heap self))%nat as Hlt by (by eapply lookup_lt_Some).
  erewrite (compute_reward_run _ _ _ t t' p0 p1); cycle 1.
  { cbn. by rewrite lookup_app_l. }
  { cbn. by rewrite list_lookup_middle. }
  { by eapply tensor_setitem_shape. }
  { done. }
  { done. }
  run_monad. case_bool_decide; [|done].
  rewrite reset_run. cbn.
  destruct (py_next (dataloader self)) as [[[ti label]|e] it']; [|done].
  unfold after_done, set_image. cbn. rewrite length_app, <- app_assoc. cbn.
  replace (length (heap self) + 1 + 1)%nat with (length (heap self) + 2)%nat by lia.
  done.
Qed.

Lemma step_run_setitem_raises self a t ch x y e :
  heap self !! image self = Some t →
  decode_action (image_shape self) a = Ok (ch, x, y) →
  tensor_setitem t 0 ch x y 0%Qc = Raise e →
  step model a self =
    (Raise e,
     set_heap (heap self ++ [t])
       (set_current_attack_count (current_attack_count self + 1) self)).
Proof.
  intros Ht Hd Hset. unfold step.
  run_bind. unfold modify at 1. run_bind. unfold gets at 1. run_bind.
  rewrite (clone_run _ _ t) by done.
  run_bind. unfold gets at 1. run_bind. unfold lift at 1. rewrite Hd.
  run_bind. erewrite setitem_last_raise; [|reflexivity|exact Hset]. done.
Qed.
End Running.

(** ** The softmax probabilities *)

Section Softmax.
Local Open Scope R_scope.

Lemma Rsum_exp_nonneg (row : list R) : 0 <= Rsum (exp <$> row).
Proof.
  induction row as [|x row IH]; csimpl; [lra|].
  pose proof (exp_pos x). lra.
Qed.

Lemma Rsum_exp_ge (row : list R) (j : nat) (x : R) :
  row !! j = Some x → exp x <= Rsum (exp <$> row).
Proof.
  revert j. induction row as [|y row IH]; intros [|j] Hj; simplify_eq/=; csimpl.
  - pose proof (Rsum_exp_nonneg row). lra.
  - pose proof (exp_pos y). pose proof (IH _ Hj). lra.
Qed.

Lemma softmax_row_lookup (row : list R) (j : nat) (x : R) :
  row !! j = Some x →
  softmax_row row !! j = Some (exp x / Rsum (exp <$> row)).
Proof. intros Hj. unfold softmax_row. by rewrite list_lookup_fmap, Hj. Qed.

Lemma softmax_row_bounds (row : list R) (j : nat) (x : R) :
  row !! j = Some x → 0 < exp x / Rsum (exp <$> row) <= 1.
Proof.
  intros Hj. pose proof (Rsum_exp_ge _ _ _ Hj) as Hge.
  pose proof (exp_pos x) as Hx.
  assert (0 < Rsum (exp <$> row)) as Hs by lra.
  split.
  - by apply Rdiv_lt_0_compat.
  - apply (Rmult_le_reg_r (Rsum (exp <$> row))); [done|].
    unfold Rdiv. rewrite Rmult_assoc, Rinv_l by lra. lra.
Qed.

(** On a classifier with [K] classes, the probability of a label is
    defined and lies in (0, 1]. *)
Lemma softmax_item_ok model (K : nat) (t : Tensor) (k : Z) :
  classifier_ok model K → (0 ≤ k < Z.of_nat K)%Z →
  ∃ p, softmax_item (model t) k = Ok p ∧ 0 < p <= 1.
Proof.
  intros Hm Hk. specialize (Hm t). unfold softmax_item, softmax.
  rewrite list_lookup_fmap.
  destruct (model t !! 0%nat) as [row|] eqn:Hrow; simplify_eq/=.
  assert (length (softmax_row row) = length row) as ->
    by apply length_fmap.
  rewrite py_index_in by lia.
  destruct (lookup_lt_is_Some_2 row (Z.to_nat k) ltac:(lia)) as [x Hx].
  rewrite (softmax_row_lookup _ _ _ Hx).
  eexists. split; [done|]. by eapply softmax_row_bounds.
Qed.
End Softmax.

(** ** Sparsity *)

Lemma filter_seq_shift (P : nat → Prop) `{!∀ k, Decision (P k)} (n : nat) :
  length (filter P (seq 1 n)) = length (filter (λ k, P (S k)) (seq 0 n)).
Proof.
  rewrite <- fmap_S_seq. generalize (seq 0 n) as l.
  induction l as [|k l IH]; [done|]. rewrite fmap_cons, !filter_cons.
  destruct (decide (P (S k))); simpl; by rewrite IH.
Qed.

Lemma Qcminus_zero (a b : Qc) : (a - b)%Qc = 0%Qc ↔ a = b.
Proof.
  split; [|intros ->; ring].
  intros Hab. replace a with ((a - b) + b)%Qc by ring. rewrite Hab. ring.
Qed.

(** The number of non-zero entries of an elementwise difference is the
    number of positions where the operands differ. *)
Lemma count_nonzero_difference (l1 l2 : list Qc) :
  length l1 = length l2 →
  length (filter (λ v : Qc, v ≠ 0%Qc) (zip_with Qcminus l1 l2))
  = length (filter (λ k, l1 !! k ≠ l2 !! k) (seq 0 (length l1))).
Proof.
  revert l2. induction l1 as [|a l1 IH]; intros [|b l2] Hlen; simplify_eq/=; [done|].
  pose proof (filter_seq_shift (λ k, (a :: l1) !! k ≠ (b :: l2) !! k) (length l1)) as Hs.
  simpl in Hs. specialize (IH l2 Hlen). rewrite !filter_cons.
  destruct (decide ((a - b)%Qc ≠ 0%Qc)) as [Hne|He],
    (decide ((a :: l1) !! 0%nat ≠ (b :: l2) !! 0%nat)) as [Hne'|He'];
    simpl in *; rewrite ?Hs, ?IH; try done.
  - exfalso. apply Hne. apply dec_stable in He'. simplify_eq. ring.
  - exfalso. apply He. intros Hz. apply Hne'. f_equal. by apply Qcminus_zero.
Qed.

Lemma count_nonzero_sparsity (t t' : Tensor) :
  length (t_data t') = length (t_data t) →
  count_nonzero (mkTensor (t_shape t') (zip_with Qcminus (t_data t') (t_data t)))
  = sparsity t' t.
Proof. intros Hlen. by apply count_nonzero_difference. Qed.

Lemma differing_positions_sym (a b : Tensor) :
  length (t_data a) = length (t_data b) →
  differing_positions a b = differing_positions b a.
Proof.
  intros Hlen. unfold differing_positions. rewrite Hlen.
  apply list_filter_iff. intros k. split; intros H ?; by apply H.
Qed.

(** ** Well-formed environments and valid steps *)

Lemma env_ok_elim {I} (K : nat) (self : ImagePerturbEnv I) :
  env_ok K self = true →
  ∃ t, heap self !! image self = Some t
    ∧ t_shape t = image_shape self
    ∧ length (t_data t) = numel (t_shape t)
    ∧ (0 < dim0 (image_shape self))%nat
    ∧ (0 < dim2 (image_shape self))%nat
    ∧ (0 < dim3 (image_shape self))%nat
    ∧ 0 ≤ target_class self < Z.of_nat K.
Proof.
  unfold env_ok. intros H.
  repeat (apply andb_prop in H as [H ?]).
  destruct (heap self !! image self) as [t|]; [|done].
  apply andb_prop in H as [? ?].
  repeat match goal with
         | H : bool_decide _ = true |- _ => apply bool_decide_eq_true_1 in H
         end.
  exists t. repeat split; (done || lia).
Qed.

Lemma env_ok_intro {I} (K : nat) (self : ImagePerturbEnv I) (t : Tensor) :
  heap self !! image self = Some t →
  t_shape t = image_shape self →
  length (t_data t) = numel (t_shape t) →
  (0 < dim0 (image_shape self))%nat →
  (0 < dim2 (image_shape self))%nat →
  (0 < dim3 (image_shape self))%nat →
  0 ≤ target_class self < Z.of_nat K →
  env_ok K self = true.
Proof.
  intros Ht ???? ? ?. unfold env_ok. rewrite Ht.
  by rewrite !bool_decide_eq_true_2.
Qed.

(** Construction on a loader whose first pair is a well-formed image with
    a label of the classifier gives a well-formed environment that holds
    that pair, with the step counter at 0. *)
Lemma init_env_ok {I D} `{!PyIterator I, !PyIterable D I} (K : nat)
    (loader : D) (budget : Z) (lam : R) (h : list Tensor)
    (t : Tensor) (label : Z) (it' : I) :
  py_next (py_iter loader : I) = (Ok (t, label), it') →
  length (t_data t) = numel (t_shape t) →
  (0 < dim0 (t_shape t))%nat → (0 < dim2 (t_shape t))%nat →
  (0 < dim3 (t_shape t))%nat → 0 ≤ label < Z.of_nat K →
  ∃ self, init loader budget lam h = Ok self
    ∧ env_ok K self = true
    ∧ heap self !! image self = Some t
    ∧ target_class self = label
    ∧ attack_budget self = budget
    ∧ current_attack_count self = 0.
Proof.
  intros Hnext Hwf H0 H2 H3 Hlabel. unfold init. rewrite Hnext.
  eexists. split; [reflexivity|].
  assert (((h ++ [t]) ++ [t]) !! length h = Some t) as Hlook.
  { rewrite <- app_assoc. by apply list_lookup_middle. }
  split; [|done]. by apply (env_ok_intro K _ t).
Qed.

Lemma offset_lt (s : Shape) (b c x y : nat) :
  in_bounds s b c x y → (offset s b c x y < numel s)%nat.
Proof.
  unfold in_bounds, offset, numel. intros (Hb & Hc & Hx & Hy).
  assert ((b * dim1 s + c) + 1 ≤ dim0 s * dim1 s)%nat as H1 by nia.
  assert (((b * dim1 s + c) * dim2 s + x) + 1 ≤ dim0 s * dim1 s * dim2 s)%nat as H2 by nia.
  nia.
Qed.

Lemma offset_inj (s : Shape) (b c x y b' c' x' y' : nat) :
  in_bounds s b c x y → in_bounds s b' c' x' y' →
  offset s b c x y = offset s b' c' x' y' →
  (b, c, x, y) = (b', c', x', y').
Proof.
  unfold in_bounds, offset. intros (Hb & Hc & Hx & Hy) (Hb' & Hc' & Hx' & Hy') Ho.
  assert (∀ q r q' r' d : nat, (r < d → r' < d → q * d + r = q' * d + r' →
            q = q' ∧ r = r')%nat) as Huniq.
  { intros q r q' r' d Hr Hr' He.
    assert (q = q') as -> by nia. split; [done|lia]. }
  apply Huniq in Ho as [Ho ->]; [|done..].
  apply Huniq in Ho as [Ho ->]; [|done..].
  apply Huniq in Ho as [-> ->]; [|done..].
  done.
Qed.

Lemma tensor_setitem_in (t : Tensor) (ch x y : Z) (v : Qc) :
  (0 < dim0 (t_shape t))%nat →
  0 ≤ ch < Z.of_nat (dim1 (t_shape t)) →
  0 ≤ x < Z.of_nat (dim2 (t_shape t)) →
  0 ≤ y < Z.of_nat (dim3 (t_shape t)) →
  tensor_setitem t 0 ch x y v =
    Ok (mkTensor (t_shape t)
          (<[offset (t_shape t) 0 (Z.to_nat ch) (Z.to_nat x) (Z.to_nat y) := v]>
             (t_data t))).
Proof.
  intros H0 Hc Hx Hy. unfold tensor_setitem, tensor_locate.
  rewrite !tensor_index_in by lia. done.
Qed.

Lemma zero_pixel_perturbs (t : Tensor) (c x y : nat) :
  length (t_data t) = numel (t_shape t) →
  in_bounds (t_shape t) 0 c x y →
  perturbs_at_most t (zero_pixel t c x y) c x y.
Proof.
  intros Hwf Hin. unfold perturbs_at_most, pixel, zero_pixel. simpl.
  split; [done|]. split.
  - apply list_lookup_insert_eq. rewrite Hwf. by apply offset_lt.
  - intros b' c' x' y' Hin' Hne. apply list_lookup_insert_ne.
    intros Ho. apply Hne. symmetry. by eapply offset_inj.
Qed.

Lemma zero_pixel_same (t : Tensor) (c x y : nat) :
  length (t_data t) = numel (t_shape t) →
  in_bounds (t_shape t) 0 c x y →
  pixel t 0 c x y = Some 0%Qc ↔ zero_pixel t c x y = t.
Proof.
  intros Hwf Hin. apply offset_lt in Hin. rewrite <- Hwf in Hin.
  unfold pixel, zero_pixel. destruct t as [s l]; simpl in *. split.
  - intros Hp. f_equal. by apply list_insert_id.
  - intros [= Hl]. rewrite <- Hl at 1. by apply list_lookup_insert_eq.
Qed.

Lemma zip_with_minus_self (l : list Qc) :
  filter (λ v : Qc, v ≠ 0%Qc) (zip_with Qcminus l l) = [].
Proof.
  induction l as [|a l IH]; [done|]. simpl. rewrite filter_cons, IH.
  rewrite decide_False; [done|]. intros Hne. apply Hne. ring.
Qed.

Lemma count_nonzero_insert (l : list Qc) (k : nat) :
  (k < length l)%nat →
  length (filter (λ v : Qc, v ≠ 0%Qc) (zip_with Qcminus (<[k := 0%Qc]> l) l))
  = if decide (l !! k = Some 0%Qc) then 0%nat else 1%nat.
Proof.
  revert k. induction l as [|a l IH]; intros [|k] Hk; simpl in *; try lia.
  - rewrite filter_cons, zip_with_minus_self.
    destruct (decide (a = 0%Qc)) as [->|Hne].
    + rewrite decide_False, decide_True; [done..|]. intros Hne. by apply Hne.
    + rewrite decide_True, decide_False; [done| |].
      * intros [= ?]. done.
      * intros Hz. apply Hne. replace a with (0 - (0 - a))%Qc by ring.
        rewrite Hz. ring.
  - rewrite filter_cons, decide_False.
    + apply IH. lia.
    + intros Hne. apply Hne. ring.
Qed.

(** The sparsity between a tensor and the same tensor with one pixel
    zeroed: 0 when the pixel was zero already, 1 otherwise. *)
Lemma sparsity_zero_pixel (t : Tensor) (c x y : nat) :
  length (t_data t) = numel (t_shape t) →
  in_bounds (t_shape t) 0 c x y →
  count_nonzero
    (mkTensor (t_shape t)
       (zip_with Qcminus (t_data (zero_pixel t c x y)) (t_data t)))
  = sparsity t (zero_pixel t c x y)
  ∧ sparsity t (zero_pixel t c x y)
    = if decide (pixel t 0 c x y = Some 0%Qc) then 0%nat else 1%nat.
Proof.
  intros Hwf Hin. apply offset_lt in Hin. rewrite <- Hwf in Hin.
  assert (length (t_data (zero_pixel t c x y)) = length (t_data t)) as Hlen
    by apply length_insert.
  unfold sparsity. rewrite (differing_positions_sym t) by done.
  pose proof (count_nonzero_sparsity t (zero_pixel t c x y) Hlen) as Hs.
  unfold sparsity in Hs. simpl in Hs. split; [exact Hs|].
  rewrite <- Hs. unfold count_nonzero. simpl. by apply count_nonzero_insert.
Qed.

Section ValidSteps.
Context {I : Type} `{!PyIterator I}.
Variable model : Tensor → list (list R).
Variable K : nat.
Hypothesis model_ok : classifier_ok model K.
Implicit Type self : ImagePerturbEnv I.

(** A step with an action of the action space, on a well-formed
    environment: everything [step] computes before it tests for the end
    of the episode. *)
Lemma step_valid self a :
  env_ok K self = true → 0 ≤ a < total_actions (image_shape self) →
  ∃ t c x y p0 p1,
    heap self !! image self = Some t
    ∧ t_shape t = image_shape self
    ∧ length (t_data t) = numel (t_shape t)
    ∧ decode_action (image_shape self) a = Ok (Z.of_nat c, Z.of_nat x, Z.of_nat y)
    ∧ in_bounds (t_shape t) 0 c x y
    ∧ softmax_item (model t) (target_class self) = Ok p0
    ∧ softmax_item (model (zero_pixel t c x y)) (target_class self) = Ok p1
    ∧ step model a self =
        if bool_decide (attack_budget self ≤ current_attack_count self + 1) then
          match py_next (dataloader self) with
          | (Ok (ti, label), it') =>
              (Ok (length (heap self),
                   reward_run self t (zero_pixel t c x y) p0 p1, true, EmptyInfo),
               after_done self (zero_pixel t c x y) ti label it')
          | (Raise e, it') =>
              (Raise e,
               set_dataloader it'
                 (set_heap (heap self ++ [zero_pixel t c x y])
                    (set_current_attack_count (current_attack_count self + 1) self)))
          end
        else
          (Ok (length (heap self),
               reward_run self t (zero_pixel t c x y) p0 p1, false, EmptyInfo),
           after_step self (zero_pixel t c x y)).
Proof.
  intros Hok Ha.
  destruct (env_ok_elim _ _ Hok) as (t & Ht & Hs & Hwf & H0 & H2 & H3 & Htc).
  destruct (decode_in_range _ _ Ha) as (ch & r & k & Hd & Hch & Hr & Hk & _).
  destruct (softmax_item_ok model K t _ model_ok Htc) as (p0 & Hp0 & _).
  set (c := Z.to_nat ch). set (x := Z.to_nat r). set (y := Z.to_nat k).
  destruct (softmax_item_ok model K (zero_pixel t c x y) _ model_ok Htc)
    as (p1 & Hp1 & _).
  assert (tensor_setitem t 0 ch r k 0%Qc = Ok (zero_pixel t c x y)) as Hset.
  { rewrite tensor_setitem_in by (rewrite Hs; lia). done. }
  exists t, c, x, y, p0, p1.
  replace (Z.of_nat c) with ch by (subst c; lia).
  replace (Z.of_nat x) with r by (subst x; lia).
  replace (Z.of_nat y) with k by (subst y; lia).
  repeat split; try done; try (rewrite Hs; subst c x y; lia).
  by apply (step_run model self a t ch r k).
Qed.
End ValidSteps.

(** ** The demonstration world *)

Lemma demo_init (budget : Z) : Demo.env0 budget = Ok (Demo.env_grey budget).
Proof. reflexivity. Qed.

Lemma demo_classifier_ok : classifier_ok Demo.flat_model 2.
Proof. intros t. reflexivity. Qed.

(** ** The perturbation of a step *)

Section StepResults.
Context {I : Type} `{!PyIterator I}.
Variable model : Tensor → list (list R).
Variable K : nat.
Hypothesis model_ok : classifier_ok model K.
Implicit Type self : ImagePerturbEnv I.

(** A valid step on a ready environment returns, and what it returns is
    a new object holding the held image with the decoded pixel zeroed,
    which the environment holds from then on. *)
Lemma step_returns self a :
  env_ok K self = true → loader_ready self = true →
  0 ≤ a < total_actions (image_shape self) →
  ∃ t c x y p0 p1 self',
    heap self !! image self = Some t
    ∧ length (t_data t) = numel (t_shape t)
    ∧ decode_action (image_shape self) a = Ok (Z.of_nat c, Z.of_nat x, Z.of_nat y)
    ∧ in_bounds (t_shape t) 0 c x y
    ∧ softmax_item (model t) (target_class self) = Ok p0
    ∧ softmax_item (model (zero_pixel t c x y)) (target_class self) = Ok p1
    ∧ step model a self =
        (Ok (length (heap self), reward_run self t (zero_pixel t c x y) p0 p1,
             bool_decide (attack_budget self ≤ current_attack_count self + 1),
             EmptyInfo), self')
    ∧ heap self' !! length (heap self) = Some (zero_pixel t c x y)
    ∧ image self' = length (heap self)
    ∧ current_attack_count self' =
        (if bool_decide (attack_budget self ≤ current_attack_count self + 1)
         then 0 else current_attack_count self + 1).
Proof.
  intros Hok Hready Ha.
  destruct (step_valid model K model_ok self a Hok Ha)
    as (t & c & x & y & p0 & p1 & Ht & Hs & Hwf & Hd & Hin & Hp0 & Hp1 & Hstep).
  exists t, c, x, y, p0, p1. unfold loader_ready in Hready.
  case_bool_decide.
  - destruct (py_next (dataloader self)) as [[[ti label]|e] it']; [|done].
    eexists. split_and!; try done.
    unfold after_done; simpl. by rewrite list_lookup_middle.
  - eexists. split_and!; try done.
    unfold after_step; simpl. by rewrite list_lookup_middle.
Qed.

(** Two calls in a row: the reward of the second is computed from the
    tensor the first returned, whatever the snapshot of the episode holds. *)
Lemma next_step_reward_from_previous_result self a1 a2 obs1 r1 d1 self1 :
  env_ok K self = true → loader_ready self = true →
  0 ≤ a1 < total_actions (image_shape self) →
  step model a1 self = (Ok (obs1, r1, d1, EmptyInfo), self1) →
  env_ok K self1 = true → loader_ready self1 = true →
  0 ≤ a2 < total_actions (image_shape self1) →
  ∃ t1 t2 obs2 r2 d2 self2 p1 p2,
    heap self1 !! obs1 = Some t1
    ∧ step model a2 self1 = (Ok (obs2, r2, d2, EmptyInfo), self2)
    ∧ heap self2 !! obs2 = Some t2
    ∧ softmax_item (model t1) (target_class self1) = Ok p1
    ∧ softmax_item (model t2) (target_class self1) = Ok p2
    ∧ r2 = ((p1 - p2) * exp (- lambda_ self1 * INR (sparsity t1 t2)))%R.
Proof.
  intros Hok Hready Ha1 Hstep1 Hok1 Hready1 Ha2.
  destruct (step_returns self a1 Hok Hready Ha1)
    as (t & c & x & y & p0 & p0' & self' & _ & _ & _ & _ & _ & _
        & Hstep & _ & Himg & _).
  rewrite Hstep1 in Hstep. injection Hstep as Hobs _ _ <-.
  destruct (step_returns self1 a2 Hok1 Hready1 Ha2)
    as (t1 & c2 & x2 & y2 & p1 & p2 & self2 & Ht1 & Hwf & _ & Hin & Hp1 & Hp2
        & Hstep2 & Hobs2 & _).
  rewrite Himg, <- Hobs in Ht1.
  exists t1, (zero_pixel t1 c2 x2 y2). eexists _, _, _, self2, p1, p2.
  split; [done|]. split; [exact Hstep2|]. split; [done|].
  split; [done|]. split; [done|].
  unfold reward_run. change (t_shape (zero_pixel t1 c2 x2 y2)) with (t_shape t1).
  by rewrite (proj1 (sparsity_zero_pixel t1 c2 x2 y2 Hwf Hin)).
Qed.

(** C4, amended. For every action [a] in [0, C*H*W), [step] returns a
    new tensor that agrees with the pre-step image at every position
    other than the (channel, row, col) decoded from [a], where it holds
    0; the two images are equal exactly when the pre-step image already
    held 0 there, so they differ at one position or at none. *)
Theorem step_zeroes_decoded_pixel self a :
  env_ok K self = true → loader_ready self = true →
  0 ≤ a < total_actions (image_shape self) →
  ∃ t t' obs reward done self' c x y,
    heap self !! image self = Some t
    ∧ step model a self = (Ok (obs, reward, done, EmptyInfo), self')
    ∧ heap self' !! obs = Some t'
    ∧ decode_action (image_shape self) a = Ok (Z.of_nat c, Z.of_nat x, Z.of_nat y)
    ∧ in_bounds (t_shape t) 0 c x y
    ∧ perturbs_at_most t t' c x y
    ∧ (pixel t 0 c x y = Some 0%Qc ↔ t' = t)
    ∧ sparsity t t' = (if decide (pixel t 0 c x y = Some 0%Qc) then 0 else 1)%nat.
Proof.
  intros Hok Hready Ha.
  destruct (step_returns self a Hok Hready Ha)
    as (t & c & x & y & p0 & p1 & self' & Ht & Hwf & Hd & Hin & _ & _
        & Hstep & Hobs & _).
  exists t, (zero_pixel t c x y). eexists _, _, _, self', c, x, y.
  split; [done|]. split; [exact Hstep|]. split; [done|].
  split; [done|]. split; [done|].
  split; [by apply zero_pixel_perturbs|].
  split; [by apply zero_pixel_same|].
  by apply sparsity_zero_pixel.
Qed.

(** C3. The reward of a valid step is
    [(p_before - p_after) * exp(-lambda * sparsity)], where [p_before]
    and [p_after] are the softmax probabilities of the held target class
    on the image held when [step] is called and on the perturbed image
    it returns, and [sparsity] is the number of positions at which the
    two differ. The image held when the call returns is the perturbed
    image just returned, so the pre-step image of the next call is this
    step's image and not the snapshot taken at the start of the
    episode. *)
Theorem step_reward_formula self a :
  env_ok K self = true → loader_ready self = true →
  0 ≤ a < total_actions (image_shape self) →
  ∃ t t' obs reward done self' p_before p_after,
    heap self !! image self = Some t
    ∧ step model a self = (Ok (obs, reward, done, EmptyInfo), self')
    ∧ heap self' !! obs = Some t'
    ∧ softmax_item (model t) (target_class self) = Ok p_before
    ∧ softmax_item (model t') (target_class self) = Ok p_after
    ∧ reward = ((p_before - p_after) * exp (- lambda_ self * INR (sparsity t t')))%R
    ∧ image self' = obs.
Proof.
  intros Hok Hready Ha.
  destruct (step_returns self a Hok Hready Ha)
    as (t & c & x & y & p0 & p1 & self' & Ht & Hwf & Hd & Hin & Hp0 & Hp1
        & Hstep & Hobs & Himg & _).
  exists t, (zero_pixel t c x y). eexists _, _, _, self', p0, p1.
  split; [done|]. split; [exact Hstep|]. split; [done|].
  split; [done|]. split; [done|]. split; [|done].
  unfold reward_run. change (t_shape (zero_pixel t c x y)) with (t_shape t).
  by rewrite (proj1 (sparsity_zero_pixel t c x y Hwf Hin)).
Qed.
End StepResults.

Lemma step_zeroes_decoded_pixel_witness :
  ∃ t t' obs reward done self' c x y,
    heap (Demo.env_grey 2) !! image (Demo.env_grey 2) = Some t
    ∧ step Demo.flat_model 3 (Demo.env_grey 2)
      = (Ok (obs, reward, done, EmptyInfo), self')
    ∧ heap self' !! obs = Some t'
    ∧ decode_action (image_shape (Demo.env_grey 2)) 3
      = Ok (Z.of_nat c, Z.of_nat x, Z.of_nat y)
    ∧ in_bounds (t_shape t) 0 c x y
    ∧ perturbs_at_most t t' c x y
    ∧ (pixel t 0 c x y = Some 0%Qc ↔ t' = t)
    ∧ sparsity t t' = (if decide (pixel t 0 c x y = Some 0%Qc) then 0 else 1)%nat.
Proof.
  apply (step_zeroes_decoded_pixel Demo.flat_model 2 demo_classifier_ok
           (Demo.env_grey 2) 3).
  - reflexivity.
  - reflexivity.
  - unfold total_actions. simpl. lia.
Defined.

Lemma step_reward_formula_witness :
  ∃ t t' obs reward done self' p_before p_after,
    heap (Demo.env_grey 2) !! image (Demo.env_grey 2) = Some t
    ∧ step Demo.flat_model 3 (Demo.env_grey 2)
      = (Ok (obs, reward, done, EmptyInfo), self')
    ∧ heap self' !! obs = Some t'
    ∧ softmax_item (Demo.flat_model t) (target_class (Demo.env_grey 2)) = Ok p_before
    ∧ softmax_item (Demo.flat_model t') (target_class (Demo.env_grey 2)) = Ok p_after
    ∧ reward = ((p_before - p_after)
                * exp (- lambda_ (Demo.env_grey 2) * INR (sparsity t t')))%R
    ∧ image self' = obs.
Proof.
  apply (step_reward_formula Demo.flat_model 2 demo_classifier_ok
           (Demo.env_grey 2) 3).
  - reflexivity.
  - reflexivity.
  - unfold total_actions. simpl. lia.
Defined.

(** C4, as stated, fails where the decoded pixel is already 0: on the
    all-black image, action 0 returns an image equal to the pre-step
    image, so no call from that state can change exactly one pixel. *)
Lemma step_on_zero_pixel_changes_nothing :
  ¬ (∀ (self : ImagePerturbEnv EndlessDataLoader) (a : Z),
       env_ok 2 self = true → loader_ready self = true →
       0 ≤ a < total_actions (image_shape self) →
       ∃ t t' obs reward done self' c x y,
         heap self !! image self = Some t
         ∧ step Demo.flat_model a self = (Ok (obs, reward, done, EmptyInfo), self')
         ∧ heap self' !! obs = Some t'
         ∧ decode_action (image_shape self) a
           = Ok (Z.of_nat c, Z.of_nat x, Z.of_nat y)
         ∧ perturbs_exactly t t' c x y).
Proof.
  intros Hclaim.
  destruct (Hclaim (Demo.env_black 2) 0 eq_refl eq_refl)
    as (t & t' & obs & reward & done & self' & c & x & y
        & Ht & _ & _ & Hd & [(_ & Hzero & _) Hdiff]).
  { unfold total_actions. simpl. lia. }
  simpl in Ht. injection Ht as <-.
  assert (c = 0%nat ∧ x = 0%nat ∧ y = 0%nat) as (-> & -> & ->).
  { assert (decode_action (image_shape (Demo.env_black 2)) 0 = Ok (0, 0, 0))
      as Hd0 by reflexivity.
    rewrite Hd0 in Hd. injection Hd as Hc Hx Hy. lia. }
  apply Hdiff. rewrite Hzero. reflexivity.
Qed.

(** ** Episodes *)

Section Episodes.
Context {I : Type} `{!PyIterator I}.
Variable model : Tensor → list (list R).
Variable K : nat.
Hypothesis model_ok : classifier_ok model K.
Implicit Type self : ImagePerturbEnv I.

Lemma steps_cons a rest self :
  steps model (a :: rest) self =
    match step model a self with
    | (Ok r, self1) =>
        match steps model rest self1 with
        | (Ok rs, self2) => (Ok (r :: rs), self2)
        | (Raise e, self2) => (Raise e, self2)
        end
    | (Raise e, self1) => (Raise e, self1)
    end.
Proof.
  simpl. unfold mbind, M_bind, mret, M_ret.
  destruct (step model a self) as [[r|e] self1]; [|done].
  by destruct (steps model rest self1) as [[rs|e] self2].
Qed.

Lemma env_ok_after_step self t c x y :
  env_ok K self = true → heap self !! image self = Some t →
  env_ok K (after_step self (zero_pixel t c x y)) = true.
Proof.
  intros Hok Ht.
  destruct (env_ok_elim _ _ Hok) as (t0 & Ht0 & Hs & Hwf & H0 & H2 & H3 & Htc).
  simplify_eq.
  apply (env_ok_intro K _ (zero_pixel t c x y)); simpl; try done.
  - by rewrite list_lookup_middle.
  - by rewrite length_insert.
Qed.

(** From a state with [m + 1] steps left in the episode. *)
Lemma episode_tail (m : nat) : ∀ self actions,
  env_ok K self = true → loader_ready self = true →
  attack_budget self = current_attack_count self + Z.of_nat (S m) →
  length actions = S m →
  Forall (λ a, 0 ≤ a < total_actions (image_shape self)) actions →
  ∃ outs self',
    steps model actions self = (Ok outs, self')
    ∧ done_of <$> outs = replicate m false ++ [true]
    ∧ current_attack_count self' = 0.
Proof.
  induction m as [|m IH]; intros self actions Hok Hready Hb Hlen Hall.
  - destruct actions as [|a [|??]]; simplify_eq/=.
    apply Forall_cons in Hall as [Ha _].
    destruct (step_returns model K model_ok self a Hok Hready Ha)
      as (t & c & x & y & p0 & p1 & self' & _ & _ & _ & _ & _ & _
          & Hstep & _ & _ & Hcount).
    rewrite bool_decide_eq_true_2 in Hstep, Hcount by lia.
    eexists _, self'. unfold mbind, M_bind, mret, M_ret. rewrite Hstep.
    split; [reflexivity|]. split; [reflexivity|done].
  - destruct actions as [|a rest]; [done|]. injection Hlen as Hlen.
    apply Forall_cons in Hall as [Ha Hrest].
    destruct (step_valid model K model_ok self a Hok Ha)
      as (t & c & x & y & p0 & p1 & Ht & _ & _ & _ & _ & _ & _ & Hstep).
    rewrite bool_decide_eq_false_2 in Hstep by lia.
    destruct (IH (after_step self (zero_pixel t c x y)) rest)
      as (outs & self' & Hsteps & Hflags & Hcount).
    + by apply env_ok_after_step.
    + exact Hready.
    + simpl. lia.
    + done.
    + exact Hrest.
    + eexists _, self'. rewrite steps_cons, Hstep, Hsteps.
      split; [reflexivity|]. split; [|done].
      rewrite fmap_cons, Hflags. reflexivity.
Qed.

(** What the environment holds after a step that ended the episode: the
    perturbed tensor as its image, next to it the tensor the reset drew,
    whose clone is the snapshot and whose label is the target class. *)
Lemma after_done_holds self (t' ti : Tensor) (label : Z) (it' : I) :
  let self' := after_done self t' ti label it' in
  heap self' !! image self' = Some t'
  ∧ heap self' !! S (image self') = Some ti
  ∧ heap self' !! original_image self' = Some ti
  ∧ target_class self' = label
  ∧ current_attack_count self' = 0.
Proof.
  simpl. split_and!; try done.
  - by rewrite list_lookup_middle.
  - rewrite lookup_app_r by lia.
    by replace (S (length (heap self)) - length (heap self))%nat with 1%nat by lia.
  - rewrite lookup_app_r by lia.
    by replace (length (heap self) + 2 - length (heap self))%nat with 2%nat by lia.
Qed.

(** Every valid step that ends an episode leaves the environment in the
    state [after_done]. *)
Lemma step_done_state self a ti label it' :
  env_ok K self = true → 0 ≤ a < total_actions (image_shape self) →
  attack_budget self ≤ current_attack_count self + 1 →
  py_next (dataloader self) = (Ok (ti, label), it') →
  ∃ t c x y reward,
    heap self !! image self = Some t
    ∧ decode_action (image_shape self) a = Ok (Z.of_nat c, Z.of_nat x, Z.of_nat y)
    ∧ step model a self =
        (Ok (length (heap self), reward, true, EmptyInfo),
         after_done self (zero_pixel t c x y) ti label it').
Proof.
  intros Hok Ha Hb Hnext.
  destruct (step_valid model K model_ok self a Hok Ha)
    as (t & c & x & y & p0 & p1 & Ht & _ & _ & Hd & _ & _ & _ & Hstep).
  rewrite bool_decide_eq_true_2, Hnext in Hstep by done.
  by eexists t, c, x, y, _.
Qed.

(** The next episode starts from a well-formed environment when the label
    drawn is one of the classifier's. *)
Lemma env_ok_after_done self t c x y ti label it' :
  env_ok K self = true → heap self !! image self = Some t →
  0 ≤ label < Z.of_nat K →
  env_ok K (after_done self (zero_pixel t c x y) ti label it') = true.
Proof.
  intros Hok Ht Hlabel.
  destruct (env_ok_elim _ _ Hok) as (t0 & Ht0 & Hs & Hwf & H0 & H2 & H3 & Htc).
  simplify_eq.
  apply (env_ok_intro K _ (zero_pixel t c x y)); simpl; try done.
  - by rewrite list_lookup_middle.
  - by rewrite length_insert.
Qed.

(** C5. In an episode with budget [n >= 1], started with the step
    counter at 0, [n] valid calls to [step] all return; the first
    [n - 1] return [done = false], the [n]-th returns [done = true], and
    the step counter is 0 once it has returned. *)
Theorem episode_done_schedule self (n : nat) actions :
  env_ok K self = true → loader_ready self = true →
  current_attack_count self = 0 → attack_budget self = Z.of_nat n →
  (1 ≤ n)%nat → length actions = n →
  Forall (λ a, 0 ≤ a < total_actions (image_shape self)) actions →
  ∃ outs self',
    steps model actions self = (Ok outs, self')
    ∧ done_of <$> outs = replicate (n - 1) false ++ [true]
    ∧ current_attack_count self' = 0.
Proof.
  intros Hok Hready Hc Hb Hn Hlen Hall.
  destruct n as [|m]; [lia|].
  replace (S m - 1)%nat with m by lia.
  apply episode_tail; try done. lia.
Qed.
End Episodes.

Lemma episode_done_schedule_witness :
  ∃ outs self',
    steps Demo.flat_model [3; 0; 3] (Demo.env_grey 3) = (Ok outs, self')
    ∧ done_of <$> outs = replicate (3 - 1) false ++ [true]
    ∧ current_attack_count self' = 0.
Proof.
  apply (episode_done_schedule Demo.flat_model 2 demo_classifier_ok
           (Demo.env_grey 3) 3 [3; 0; 3]).
  - reflexivity.
  - reflexivity.
  - reflexivity.
  - reflexivity.
  - lia.
  - reflexivity.
  - unfold total_actions. simpl. repeat constructor; lia.
Defined.

(** ** The frame of a step *)

Section Frame.
Context {I : Type} `{!PyIterator I}.
Variable model : Tensor → list (list R).
Implicit Type self : ImagePerturbEnv I.

Lemma compute_reward_state self o p : (compute_reward model o p self).2 = self.
Proof.
  unfold compute_reward, tensor_sub. run_monad.
  repeat case_match; simplify_eq/=; done.
Qed.

Lemma step_frame_grow self h n img :
  step_frame self
    (set_image img (set_heap (heap self ++ h) (set_current_attack_count n self))).
Proof. unfold step_frame. simpl. split_and!; try done. by apply prefix_app_r. Qed.

Lemma step_frame_grow' self h n :
  step_frame self (set_heap (heap self ++ h) (set_current_attack_count n self)).
Proof. unfold step_frame. simpl. split_and!; try done. by apply prefix_app_r. Qed.

Lemma step_frame_count self n : step_frame self (set_current_attack_count n self).
Proof. unfold step_frame. simpl. split_and!; done. Qed.

(** C9. A call to [step] that does not end the episode (the counter
    after the increment is below the budget) leaves the snapshot of the
    original image, the target class, the attack budget, lambda, the
    action space and the observation space as they were, and with them
    the recorded shape, the loader and the value of every tensor object
    that existed before the call: only the held image and the step
    counter change. This holds whether the call returns or raises. *)
Theorem step_changes_only_image_and_counter self a :
  current_attack_count self + 1 < attack_budget self →
  step_frame self (step model a self).2.
Proof.
  intros Hlt. unfold step.
  run_bind. unfold modify at 1. run_bind. unfold gets at 1. run_bind.
  unfold clone at 1. run_bind. unfold deref at 1. env_simpl.
  destruct (heap self !! image self) as [t|] eqn:Ht; [|apply step_frame_count].
  unfold alloc at 1. run_bind. unfold gets at 1. run_bind. unfold lift at 1.
  destruct (decode_action (image_shape self) a) as [[[ch x] y]|e];
    [|apply step_frame_grow'].
  run_bind.
  destruct (tensor_setitem t 0 ch x y 0%Qc) as [t'|e] eqn:Hset.
  - erewrite setitem_last_run; [|reflexivity|exact Hset]. run_bind.
    pose proof (compute_reward_state
                  (set_heap (heap self ++ [t'])
                     (set_current_attack_count (current_attack_count self + 1) self))
                  (image self) (length (heap self))) as Hcr.
    destruct (compute_reward _ _ _ _) as [[r|e] self1]; simpl in Hcr; subst self1;
      [|apply step_frame_grow'].
    run_monad. rewrite bool_decide_eq_false_2 by lia.
    apply step_frame_grow.
  - erewrite setitem_last_raise; [|reflexivity|exact Hset].
    apply step_frame_grow'.
Qed.
End Frame.

Lemma step_changes_only_image_and_counter_witness :
  step_frame (Demo.env_grey 2) (step Demo.flat_model 3 (Demo.env_grey 2)).2.
Proof.
  apply (step_changes_only_image_and_counter Demo.flat_model (Demo.env_grey 2) 3).
  simpl. lia.
Defined.

(** ** Actions outside the action space *)

Section UnvalidatedActions.
Context {I : Type} `{!PyIterator I}.
Variable model : Tensor → list (list R).
Variable K : nat.
Hypothesis model_ok : classifier_ok model K.
Implicit Type self : ImagePerturbEnv I.

(** An action outside [-C*H*W, C*H*W) decodes to a channel index
    outside [-C, C); the item assignment raises, after the counter was
    incremented and the clone allocated: an [IndexError] when the channel
    index fits a signed 64-bit integer, the overflow of the unpacking
    when it does not. *)
Lemma step_action_outside self a :
  env_ok K self = true →
  a < - total_actions (image_shape self) ∨ total_actions (image_shape self) ≤ a →
  ∃ t, heap self !! image self = Some t
    ∧ step model a self =
        (Raise (if fits_int64
                     (a / (Z.of_nat (dim2 (image_shape self))
                           * Z.of_nat (dim3 (image_shape self))))
                then IndexError else OverflowUnpackingLong),
         set_heap (heap self ++ [t])
           (set_current_attack_count (current_attack_count self + 1) self)).
Proof.
  intros Hok Ha.
  destruct (env_ok_elim _ _ Hok) as (t & Ht & Hs & Hwf & H0 & H2 & H3 & Htc).
  exists t. split; [done|].
  eapply step_run_setitem_raises; [done|by apply decode_action_pos|].
  unfold tensor_setitem, tensor_locate. rewrite Hs.
  rewrite (tensor_index_in 0) by lia. simpl.
  rewrite (tensor_index_outside
             (a / (Z.of_nat (dim2 (image_shape self))
                   * Z.of_nat (dim3 (image_shape self))))); [done|].
  unfold total_actions in Ha.
  destruct Ha as [Ha|Ha]; [left|right].
  - apply Z.div_lt_upper_bound; [lia|]. lia.
  - apply Z.div_le_lower_bound; [lia|]. lia.
Qed.

(** A negative action whose channel index is in [-C, 0) runs exactly as
    the action [C*H*W] above it. *)
Lemma step_negative_wraps self a :
  env_ok K self = true →
  - Z.of_nat (dim1 (image_shape self))
    ≤ a / (Z.of_nat (dim2 (image_shape self)) * Z.of_nat (dim3 (image_shape self)))
    < 0 →
  0 ≤ a + total_actions (image_shape self) < total_actions (image_shape self)
  ∧ step model a self = step model (a + total_actions (image_shape self)) self.
Proof.
  intros Hok Hch.
  destruct (env_ok_elim _ _ Hok) as (t & Ht & Hs & Hwf & H0 & H2 & H3 & Htc).
  set (C := Z.of_nat (dim1 (image_shape self))) in *.
  set (hw := Z.of_nat (dim2 (image_shape self)) * Z.of_nat (dim3 (image_shape self))) in *.
  assert (0 < hw) as Hhw by (subst hw; lia).
  assert (total_actions (image_shape self) = C * hw) as Htot
    by (unfold total_actions; subst C hw; lia).
  rewrite Htot.
  assert ((a + C * hw) / hw = a / hw + C) as Hdiv by (apply Z.div_add; lia).
  assert ((a + C * hw) mod hw = a mod hw) as Hmod by (apply Z.mod_add; lia).
  assert (0 ≤ a + C * hw < C * hw) as Hrange.
  { pose proof (Z.div_mod a hw ltac:(lia)) as Hdm.
    pose proof (Z.mod_pos_bound a hw Hhw). nia. }
  split; [done|].
  destruct (step_valid model K model_ok self (a + C * hw) Hok)
    as (t' & c & x & y & p0 & p1 & Ht' & _ & _ & Hd & Hin & Hp0 & Hp1 & Hstep).
  { by rewrite Htot. }
  simplify_eq. rewrite Hstep.
  rewrite decode_action_pos in Hd by done. fold hw in Hd.
  rewrite Hdiv, Hmod in Hd. injection Hd as Hc Hx Hy.
  eapply step_run; [done|by apply decode_action_pos|..|done|done].
  fold hw. rewrite Hx, Hy.
  unfold tensor_setitem, tensor_locate.
  destruct Hin as (_ & Hc' & Hx' & Hy'). rewrite Hs in Hc', Hx', Hy'.
  rewrite Hs. rewrite (tensor_index_wrap (a / hw)) by (subst C; lia).
  fold C. rewrite Hc.
  rewrite !tensor_index_in by lia. simpl. rewrite !Nat2Z.id.
  unfold zero_pixel. rewrite Hs. done.
Qed.

(** C10. [step] does not validate its action. For every action at or
    above [C*H*W] it raises from the item assignment, and the state the
    failed call leaves behind has the step counter incremented: the
    exception is an [IndexError] when the decoded channel index fits a
    signed 64-bit integer, and the overflow of torch's unpacking of the
    index when it does not. For every negative action whose decoded
    channel index is in [-C, 0) it does not raise: it runs exactly as
    the in-range action [C*H*W] above it, and returns the held image
    with the pixel at channel [channel + C] (negative-index wraparound),
    same row and column, set to 0. *)
Theorem step_does_not_validate_action self a :
  env_ok K self = true →
  (total_actions (image_shape self) ≤ a →
   ∃ self',
     step model a self =
       (Raise (if fits_int64
                    (a / (Z.of_nat (dim2 (image_shape self))
                          * Z.of_nat (dim3 (image_shape self))))
               then IndexError else OverflowUnpackingLong),
        self')
     ∧ current_attack_count self' = current_attack_count self + 1)
  ∧ (- Z.of_nat (dim1 (image_shape self))
       ≤ a / (Z.of_nat (dim2 (image_shape self)) * Z.of_nat (dim3 (image_shape self)))
       < 0 →
     step model a self = step model (a + total_actions (image_shape self)) self
     ∧ (loader_ready self = true →
        ∃ t obs reward done self' channel x y,
          heap self !! image self = Some t
          ∧ decode_action (image_shape self) a = Ok (channel, Z.of_nat x, Z.of_nat y)
          ∧ - Z.of_nat (dim1 (image_shape self)) ≤ channel < 0
          ∧ step model a self = (Ok (obs, reward, done, EmptyInfo), self')
          ∧ heap self' !! obs
            = Some (zero_pixel t
                      (Z.to_nat (channel + Z.of_nat (dim1 (image_shape self)))) x y))).
Proof.
  intros Hok. split.
  - intros Ha.
    destruct (step_action_outside self a Hok (or_intror Ha)) as (t & _ & ->).
    eexists. split; [reflexivity|done].
  - intros Hch. destruct (step_negative_wraps self a Hok Hch) as [Hrange Hwrap].
    split; [done|]. intros Hready. rewrite Hwrap.
    destruct (step_returns model K model_ok self _ Hok Hready Hrange)
      as (t & c & x & y & p0 & p1 & self' & Ht & _ & Hd & _ & _ & _
          & Hstep & Hobs & _).
    destruct (env_ok_elim _ _ Hok) as (_ & _ & _ & _ & _ & H2 & H3 & _).
    rewrite decode_action_pos in Hd by done.
    injection Hd as Hc Hx Hy.
    assert (total_actions (image_shape self)
            = Z.of_nat (dim1 (image_shape self))
              * (Z.of_nat (dim2 (image_shape self)) * Z.of_nat (dim3 (image_shape self))))
      as Htot by (unfold total_actions; lia).
    rewrite Htot in Hc, Hx, Hy.
    rewrite Z.div_add in Hc by lia. rewrite Z.mod_add in Hx, Hy by lia.
    exists t. eexists _, _, _, self', _, x, y.
    split; [done|]. rewrite decode_action_pos by done.
    rewrite Hx, Hy. split; [reflexivity|]. split; [done|].
    split; [exact Hstep|]. rewrite Hc, Nat2Z.id. done.
Qed.
End UnvalidatedActions.

Lemma step_does_not_validate_action_witness :
  (∃ self', step Demo.flat_model 4 (Demo.env_grey 2) = (Raise IndexError, self')
     ∧ current_attack_count self' = current_attack_count (Demo.env_grey 2) + 1)
  ∧ (∃ self', step Demo.flat_model (2 ^ 65) (Demo.env_grey 2)
              = (Raise OverflowUnpackingLong, self')
     ∧ current_attack_count self' = current_attack_count (Demo.env_grey 2) + 1)
  ∧ (step Demo.flat_model (-1) (Demo.env_grey 2)
     = step Demo.flat_model (-1 + total_actions (image_shape (Demo.env_grey 2)))
         (Demo.env_grey 2)
     ∧ ∃ t obs reward done self' channel x y,
         heap (Demo.env_grey 2) !! image (Demo.env_grey 2) = Some t
         ∧ decode_action (image_shape (Demo.env_grey 2)) (-1)
           = Ok (channel, Z.of_nat x, Z.of_nat y)
         ∧ - Z.of_nat (dim1 (image_shape (Demo.env_grey 2))) ≤ channel < 0
         ∧ step Demo.flat_model (-1) (Demo.env_grey 2)
           = (Ok (obs, reward, done, EmptyInfo), self')
         ∧ heap self' !! obs
           = Some (zero_pixel t
                     (Z.to_nat (channel
                                + Z.of_nat (dim1 (image_shape (Demo.env_grey 2)))))
                     x y)).
Proof.
  split; [|split].
  - destruct (step_does_not_validate_action Demo.flat_model 2
                demo_classifier_ok (Demo.env_grey 2) 4) as [Hlarge _].
    + reflexivity.
    + apply Hlarge. unfold total_actions. simpl. lia.
  - destruct (step_does_not_validate_action Demo.flat_model 2
                demo_classifier_ok (Demo.env_grey 2) (2 ^ 65)) as [Hlarge _].
    + reflexivity.
    + apply Hlarge. unfold total_actions. simpl. lia.
  - destruct (step_does_not_validate_action Demo.flat_model 2
                demo_classifier_ok (Demo.env_grey 2) (-1)) as [_ Hneg].
    + reflexivity.
    + destruct Hneg as [Hwrap Hruns]; [change (-1 ≤ -1 < 0); lia|].
      split; [exact Hwrap|]. apply Hruns. reflexivity.
Defined.

(** C10, as stated, fails for an action whose decoded channel index does
    not fit a signed 64-bit integer: on the 1x1x2x2 image, action [2^65]
    decodes to channel [2^63], and the item assignment raises the
    overflow of the unpacking of the index, not an [IndexError]. *)
Lemma step_huge_action_overflows :
  ¬ (∀ (self : ImagePerturbEnv EndlessDataLoader) (a : Z),
       env_ok 2 self = true →
       total_actions (image_shape self) ≤ a →
       ∃ self', step Demo.flat_model a self = (Raise IndexError, self')
         ∧ current_attack_count self' = current_attack_count self + 1).
Proof.
  intros Hclaim.
  destruct (Hclaim (Demo.env_grey 2) (2 ^ 65) eq_refl) as (self' & Hstep & _).
  { unfold total_actions. simpl. lia. }
  assert ((step Demo.flat_model (2 ^ 65) (Demo.env_grey 2)).1
          = Raise OverflowUnpackingLong) as Hrun by reflexivity.
  rewrite Hstep in Hrun. discriminate Hrun.
Qed.

(** ** The reward *)

Lemma sparsity_self (t : Tensor) : sparsity t t = 0%nat.
Proof.
  unfold sparsity, differing_positions.
  induction (seq 0 (length (t_data t))) as [|k l IH]; [done|].
  rewrite filter_cons, decide_False; [done|]. intros Hne. by apply Hne.
Qed.

Section Reward.
Context {I : Type} `{!PyIterator I}.
Variable model : Tensor → list (list R).
Variable K : nat.
Hypothesis model_ok : classifier_ok model K.
Implicit Type self : ImagePerturbEnv I.
Local Open Scope R_scope.




End Reward.


(** The environment of the counterexample below is the one the code
    reaches: constructed with [lambda_ = -1000], then stepped once with
    action 0. *)
Lemma negative_lambda_env_reached :
  init Demo.endless 2 (-1000)%R [] = Ok DemoNegativeLambda.env0
  ∧ (step Demo.flat_model 0 DemoNegativeLambda.env0).2 = DemoNegativeLambda.env.
Proof. split; reflexivity. Qed.


(** ** The endless loader *)

Section Endless.
Implicit Type e : EndlessDataLoader.
Implicit Type self : ImagePerturbEnv EndlessDataLoader.

(** On a non-empty dataset a draw succeeds, whatever is left of the
    current pass, and the loader still wraps the same dataset. *)
Lemma endless_next_ok e :
  batches (wrapped e) ≠ [] →
  ∃ x e', py_next e = (Ok x, e') ∧ wrapped e' = wrapped e.
Proof.
  intros Hne. unfold py_next, EndlessDataLoader_next.
  unfold py_next, OnePass_next, py_iter, FiniteLoader_iter. simpl.
  destruct (remaining (iterator e)) as [|x rest]; [|by eexists _, _].
  destruct (batches (wrapped e)) as [|x rest]; [done|by eexists _, _].
Qed.

Lemma endless_draw_n e (n : nat) :
  batches (wrapped e) ≠ [] →
  ∃ xs e', draw_n n e = (Ok xs, e') ∧ length xs = n ∧ wrapped e' = wrapped e.
Proof.
  intros Hne. revert e Hne. induction n as [|n IH]; intros e Hne.
  - by eexists [], e.
  - destruct (endless_next_ok e Hne) as (x & e1 & Hx & Hw).
    destruct (IH e1) as (xs & e2 & Hxs & Hlen & Hw2); [by rewrite Hw|].
    exists (x :: xs), e2. simpl. rewrite Hx, Hxs. simpl.
    split; [done|]. split; [by rewrite Hlen|]. by rewrite Hw2.
Qed.

Lemma endless_reset self :
  batches (wrapped (dataloader self)) ≠ [] →
  ∃ r self', reset self = (Ok r, self')
    ∧ wrapped (dataloader self') = wrapped (dataloader self).
Proof.
  intros Hne. rewrite reset_run.
  destruct (endless_next_ok _ Hne) as ([ti label] & e' & -> & Hw).
  by eexists _, _.
Qed.

Lemma endless_resets self (n : nat) :
  batches (wrapped (dataloader self)) ≠ [] →
  ∃ rs self', resets n self = (Ok rs, self') ∧ length rs = n
    ∧ wrapped (dataloader self') = wrapped (dataloader self).
Proof.
  intros Hne. revert self Hne. induction n as [|n IH]; intros self Hne.
  - by eexists [], self.
  - destruct (endless_reset self Hne) as (r & self1 & Hr & Hw).
    destruct (IH self1) as (rs & self2 & Hrs & Hlen & Hw2); [by rewrite Hw|].
    exists (r :: rs), self2. simpl. unfold mbind, M_bind, mret, M_ret.
    rewrite Hr, Hrs. split; [done|]. split; [simpl; by rewrite Hlen|].
    by rewrite Hw2.
Qed.

Lemma draw_n_add {I} `{!PyIterator I} (n m : nat) (it it' it'' : I) xs ys :
  draw_n n it = (Ok xs, it') → draw_n m it' = (Ok ys, it'') →
  draw_n (n + m) it = (Ok (xs ++ ys), it'').
Proof.
  revert it xs. induction n as [|n IH]; intros it xs Hn Hm; simpl in *.
  - by simplify_eq.
  - destruct (py_next it) as [[x|e] it1]; [|done].
    destruct (draw_n n it1) as [[xs'|e] it2] eqn:Hxs'; simplify_eq.
    by rewrite (IH _ _ Hxs' Hm).
Qed.

(** Drawing what is left of a pass exhausts it. *)
Lemma endless_rest_of_pass (d : FiniteLoader) (l : list (Tensor * Z)) :
  draw_n (length l) (mkEndless d (mkOnePass l))
  = (Ok l, mkEndless d (mkOnePass [])).
Proof.
  induction l as [|x l IH]; [done|]. simpl. by rewrite IH.
Qed.

(** After exhaustion the next draws go through the dataset again. *)
Lemma endless_restart (d : FiniteLoader) :
  batches d ≠ [] →
  draw_n (length (batches d)) (mkEndless d (mkOnePass []))
  = (Ok (batches d), mkEndless d (mkOnePass [])).
Proof.
  intros Hne. destruct (batches d) as [|x l] eqn:Hd; [done|]. simpl.
  unfold py_next at 1, EndlessDataLoader_next, py_iter, FiniteLoader_iter.
  simpl. rewrite Hd. simpl. by rewrite endless_rest_of_pass.
Qed.

Lemma join_replicate_snoc {A} (n : nat) (l : list A) :
  mjoin (replicate n l) ++ l = mjoin (replicate (S n) l).
Proof.
  induction n as [|n IH]; simpl in *; [by rewrite app_nil_r|].
  by rewrite <- app_assoc, IH.
Qed.

(** [k] times the size of the dataset draws from a new endless loader
    return the dataset [k] times over. *)
Lemma endless_cycles (d : FiniteLoader) (k : nat) :
  batches d ≠ [] →
  draw_n (S k * length (batches d)) (EndlessDataLoader_new d)
  = (Ok (mjoin (replicate (S k) (batches d))), mkEndless d (mkOnePass [])).
Proof.
  intros Hne. induction k as [|k IH].
  - simpl. rewrite Nat.add_0_r, app_nil_r. apply endless_rest_of_pass.
  - replace (S (S k) * length (batches d))%nat
      with (S k * length (batches d) + length (batches d))%nat by lia.
    rewrite (draw_n_add _ _ _ _ _ _ _ IH (endless_restart d Hne)).
    by rewrite join_replicate_snoc.
Qed.

(** C7. On a non-empty dataset the endless loader never raises: from
    any point of a pass, any number of consecutive draws succeeds, the
    pass being restarted when it is exhausted; so the construction of
    the environment succeeds, and so does any number of resets. On an
    empty dataset the first draw fails with [EmptyDatasetError], and
    with it the construction of the environment. *)
Theorem endless_loader_never_exhausted (d : FiniteLoader) e self (n : nat)
    (budget : Z) (lam : R) (h : list Tensor) :
  wrapped e = d → wrapped (dataloader self) = d →
  (batches d ≠ [] →
     (∃ xs e', draw_n n e = (Ok xs, e') ∧ length xs = n ∧ wrapped e' = d)
     ∧ (∃ self0, init (EndlessDataLoader_new d) budget lam h = Ok self0
          ∧ wrapped (dataloader self0) = d)
     ∧ (∃ rs self', resets n self = (Ok rs, self') ∧ length rs = n
          ∧ wrapped (dataloader self') = d))
  ∧ (batches d = [] →
     (py_next (EndlessDataLoader_new d)).1 = Raise EmptyDatasetError
     ∧ init (EndlessDataLoader_new d) budget lam h = Raise EmptyDatasetError).
Proof.
  intros He Hself. split.
  - intros Hne. split_and!.
    + destruct (endless_draw_n e n) as (xs & e' & ? & ? & ?); [by rewrite He|].
      exists xs, e'. split_and!; congruence.
    + destruct (endless_next_ok (EndlessDataLoader_new d) Hne)
        as ([ti label] & e' & Hx & Hw).
      unfold init, py_iter, EndlessDataLoader_iter. rewrite Hx.
      eexists. split; [reflexivity|]. exact Hw.
    + destruct (endless_resets self n) as (rs & self' & ? & ? & ?);
        [by rewrite Hself|].
      exists rs, self'. split_and!; congruence.
  - intros Hempty.
    assert ((py_next (EndlessDataLoader_new d))
            = (Raise EmptyDatasetError, EndlessDataLoader_new d)) as Hnext.
    { unfold py_next, EndlessDataLoader_next, EndlessDataLoader_new.
      unfold py_next, OnePass_next, py_iter, FiniteLoader_iter. simpl.
      by rewrite Hempty. }
    split; [by rewrite Hnext|].
    unfold init, py_iter, EndlessDataLoader_iter. by rewrite Hnext.
Qed.
End Endless.

Lemma endless_loader_never_exhausted_witness :
  ((∃ xs e', draw_n 5 Demo.endless = (Ok xs, e') ∧ length xs = 5%nat
      ∧ wrapped e' = Demo.loader)
   ∧ (∃ self0, init (EndlessDataLoader_new Demo.loader) 1 default_lambda []
               = Ok self0
        ∧ wrapped (dataloader self0) = Demo.loader)
   ∧ (∃ rs self', resets 5 (Demo.env_grey 1) = (Ok rs, self') ∧ length rs = 5%nat
        ∧ wrapped (dataloader self') = Demo.loader))
  ∧ ((py_next (EndlessDataLoader_new Demo.empty_loader)).1 = Raise EmptyDatasetError
     ∧ init (I := EndlessDataLoader) (EndlessDataLoader_new Demo.empty_loader) 1
         default_lambda []
       = Raise EmptyDatasetError).
Proof.
  split.
  - destruct (endless_loader_never_exhausted Demo.loader Demo.endless
                (Demo.env_grey 1) 5 1 default_lambda []) as [Hfull _].
    + reflexivity.
    + reflexivity.
    + apply Hfull. discriminate.
  - destruct (endless_loader_never_exhausted Demo.empty_loader
                (EndlessDataLoader_new Demo.empty_loader)
                (set_dataloader (EndlessDataLoader_new Demo.empty_loader)
                   (Demo.env_grey 1)) 0 1 default_lambda []) as [_ Hempty].
    + reflexivity.
    + reflexivity.
    + apply Hempty. reflexivity.
Defined.

(** ** The end of an episode *)

(** The run of one step with action 0 on [Demo.env_grey 1], whose budget
    is one step. *)
Lemma demo_done_step :
  ∃ reward,
    step Demo.flat_model 0 (Demo.env_grey 1)
    = (Ok (2%nat, reward, true, EmptyInfo), Demo.env_after_done).
Proof.
  destruct (step_valid Demo.flat_model 2 demo_classifier_ok (Demo.env_grey 1) 0)
    as (t & c & x & y & p0 & p1 & Ht & _ & _ & Hd & _ & _ & _ & Hstep).
  { reflexivity. }
  { unfold total_actions. simpl. lia. }
  simpl in Ht. injection Ht as <-.
  assert (c = 0%nat ∧ x = 0%nat ∧ y = 0%nat) as (-> & -> & ->).
  { assert (decode_action (image_shape (Demo.env_grey 1)) 0 = Ok (0, 0, 0))
      as Hd0 by reflexivity.
    rewrite Hd0 in Hd. injection Hd as Hc Hx Hy. lia. }
  rewrite Hstep. eexists. reflexivity.
Qed.

(** C1. Code defect, shown on a run: with a budget of one step, the first
    [step] on the image [grey] returns [done = true] after the internal
    reset drew the image [white] (object 3) and took its snapshot
    (object 4), but the image the environment holds once the call has
    returned is object 2, the perturbed image of the episode that ended:
    the assignment of the perturbed image comes after the reset and
    overwrites the image it drew. *)
Theorem step_done_holds_ended_image :
  ∃ obs reward self',
    step Demo.flat_model 0 (Demo.env_grey 1)
    = (Ok (obs, reward, true, EmptyInfo), self')
    ∧ heap self' = [Demo.grey; Demo.grey; Demo.grey_0; Demo.white; Demo.white]
    ∧ obs = 2%nat
    ∧ image self' = obs
    ∧ original_image self' = 4%nat
    ∧ current_attack_count self' = 0.
Proof.
  destruct demo_done_step as (reward & Hstep).
  exists 2%nat, reward, Demo.env_after_done. by split_and!.
Qed.

(** C2. Code defect, shown on the same run: the loader yields [grey] with
    label 0 and then [white] with label 1. After construction the
    environment holds [grey] and target class 0. After the step that ends
    the episode it holds target class 1, the label yielded with [white],
    together with the perturbed [grey], whose label is 0: the reset
    replaced the target class, and the image it drew was overwritten. *)
Theorem step_done_leaves_target_of_another_image :
  batches Demo.loader = [(Demo.grey, 0); (Demo.white, 1)]
  ∧ Demo.env0 1 = Ok (Demo.env_grey 1)
  ∧ heap (Demo.env_grey 1) !! image (Demo.env_grey 1) = Some Demo.grey
  ∧ target_class (Demo.env_grey 1) = 0
  ∧ ∃ obs reward self',
      step Demo.flat_model 0 (Demo.env_grey 1)
      = (Ok (obs, reward, true, EmptyInfo), self')
      ∧ heap self' !! image self' = Some Demo.grey_0
      ∧ Demo.grey_0 = zero_pixel Demo.grey 0 0 0
      ∧ target_class self' = 1.
Proof.
  split_and!; try reflexivity.
  destruct demo_done_step as (reward & Hstep).
  exists 2%nat, reward, Demo.env_after_done. by split_and!.
Qed.

(** * Further properties of [src/env.py] *)

(** ** What no call ever changes *)

Ltac solve_keeps :=
  unfold keeps_objects; simpl; rewrite <- ?app_assoc;
  split_and!; try done; by apply prefix_app_r.

Section KeepsObjects.
Context {I : Type} `{!PyIterator I}.
Variable model : Tensor → list (list R).
Implicit Type self : ImagePerturbEnv I.

Lemma reset_keeps_objects self : keeps_objects self (reset self).2.
Proof.
  rewrite reset_run.
  destruct (py_next (dataloader self)) as [[[ti label]|e] it']; solve_keeps.
Qed.

(** When [reset] raises, nothing but the state of the loader has
    changed: image, target class, snapshot and counter are the old ones. *)
Lemma reset_raise_state self e self' :
  reset self = (Raise e, self') → self' = set_dataloader (dataloader self') self.
Proof.
  rewrite reset_run.
  destruct (py_next (dataloader self)) as [[[ti label]|e'] it']; [done|].
  by intros [= _ <-].
Qed.

(** [step] keeps every existing object and the attributes fixed at
    construction, on every path through its body. *)
Lemma calls_keep_existing_objects_aux self a :
  keeps_objects self (step model a self).2.
Proof.
  unfold step.
  run_bind. unfold modify at 1. run_bind. unfold gets at 1. run_bind.
  unfold clone at 1. run_bind. unfold deref at 1. env_simpl.
  destruct (heap self !! image self) as [t|] eqn:Ht; [|solve_keeps].
  unfold alloc at 1. run_bind. unfold gets at 1. run_bind. unfold lift at 1.
  destruct (decode_action (image_shape self) a) as [[[ch x] y]|e];
    [|solve_keeps].
  run_bind.
  destruct (tensor_setitem t 0 ch x y 0%Qc) as [t'|e] eqn:Hset.
  - erewrite setitem_last_run; [|reflexivity|exact Hset]. run_bind.
    pose proof (compute_reward_state model
                  (set_heap (heap self ++ [t'])
                     (set_current_attack_count (current_attack_count self + 1) self))
                  (image self) (length (heap self))) as Hcr.
    destruct (compute_reward _ _ _ _) as [[r|e] self1]; simpl in Hcr; subst self1;
      [|solve_keeps].
    run_monad. case_bool_decide; [|solve_keeps].
    rewrite reset_run. simpl.
    destruct (py_next (dataloader self)) as [[[ti label]|e] it']; simpl.
    + solve_keeps.
    + solve_keeps.
  - erewrite setitem_last_raise; [|reflexivity|exact Hset].
    solve_keeps.
Qed.

(** X5. Every call to [step] and every call to [reset], whether it returns or
    raises and whether or not it ends an episode, leaves the value of
    every tensor object that existed before the call as it was (so an
    observation handed out earlier is never modified behind the caller's
    back), and leaves the recorded shape, both spaces, the budget and
    lambda unchanged; a [reset] that raises changes nothing but the state
    of the loader. *)
Theorem calls_keep_existing_objects self a :
  keeps_objects self (step model a self).2
  ∧ keeps_objects self (reset self).2
  ∧ ∀ e self', reset self = (Raise e, self') →
      self' = set_dataloader (dataloader self') self.
Proof.
  split; [apply calls_keep_existing_objects_aux|].
  split; [apply reset_keeps_objects | apply reset_raise_state].
Qed.
End KeepsObjects.

(** ** Which actions raise *)

Section RaisingActions.
Context {I : Type} `{!PyIterator I}.
Variable model : Tensor → list (list R).
Variable K : nat.
Hypothesis model_ok : classifier_ok model K.
Implicit Type self : ImagePerturbEnv I.

(** X6. On a well-formed environment whose loader can deliver, [step]
    returns exactly for the actions in [-C*H*W, C*H*W): the band of
    negative actions [-C*H*W, 0) is accepted like the action space
    itself. For the actions outside it the item assignment raises: an
    [IndexError] exactly when the decoded channel index fits a signed
    64-bit integer, the overflow of torch's unpacking of the index
    exactly when it does not. *)
Theorem step_raises_outside_the_band self a :
  env_ok K self = true → loader_ready self = true →
  (is_ok (step model a self).1 = true
   ↔ - total_actions (image_shape self) ≤ a < total_actions (image_shape self))
  ∧ ((step model a self).1 = Raise IndexError
     ↔ (a < - total_actions (image_shape self)
        ∨ total_actions (image_shape self) ≤ a)
       ∧ fits_int64 (a / (Z.of_nat (dim2 (image_shape self))
                          * Z.of_nat (dim3 (image_shape self)))) = true)
  ∧ ((step model a self).1 = Raise OverflowUnpackingLong
     ↔ (a < - total_actions (image_shape self)
        ∨ total_actions (image_shape self) ≤ a)
       ∧ fits_int64 (a / (Z.of_nat (dim2 (image_shape self))
                          * Z.of_nat (dim3 (image_shape self)))) = false).
Proof.
  intros Hok Hready.
  destruct (decide (a < - total_actions (image_shape self)
                    ∨ total_actions (image_shape self) ≤ a)) as [Hout|Hin].
  - destruct (step_action_outside model K self a Hok Hout) as (t & _ & ->).
    simpl. destruct (fits_int64 _).
    + split_and!; split; try done; lia.
    + split_and!; split; try done; lia.
  - assert (∃ v, (step model a self).1 = Ok v) as [v Hv].
    { assert (∀ b, 0 ≤ b < total_actions (image_shape self) →
                   ∃ v, (step model b self).1 = Ok v) as Hband.
      { intros b Hb.
        destruct (step_returns model K model_ok self b Hok Hready Hb)
          as (? & ? & ? & ? & ? & ? & ? & _ & _ & _ & _ & _ & _ & -> & _).
        by eexists. }
      destruct (env_ok_elim _ _ Hok) as (_ & _ & _ & _ & _ & H2 & H3 & _).
      destruct (decide (0 ≤ a)) as [Hpos|Hneg]; [apply Hband; lia|].
      destruct (step_negative_wraps model K model_ok self a Hok) as [Hrange Hwrap].
      { unfold total_actions in Hin. split.
        - apply Z.div_le_lower_bound; lia.
        - apply Z.div_lt_upper_bound; lia. }
      rewrite Hwrap. by apply Hband. }
    rewrite Hv. simpl. split_and!; split; try done; lia.
Qed.
End RaisingActions.

Lemma step_raises_outside_the_band_witness :
  (is_ok (step Demo.flat_model (-5) (Demo.env_grey 2)).1 = true
   ↔ - total_actions (image_shape (Demo.env_grey 2)) ≤ -5
     < total_actions (image_shape (Demo.env_grey 2)))
  ∧ ((step Demo.flat_model (-5) (Demo.env_grey 2)).1 = Raise IndexError
     ↔ (-5 < - total_actions (image_shape (Demo.env_grey 2))
        ∨ total_actions (image_shape (Demo.env_grey 2)) ≤ -5)
       ∧ fits_int64 (-5 / (Z.of_nat (dim2 (image_shape (Demo.env_grey 2)))
                           * Z.of_nat (dim3 (image_shape (Demo.env_grey 2))))) = true)
  ∧ ((step Demo.flat_model (-5) (Demo.env_grey 2)).1 = Raise OverflowUnpackingLong
     ↔ (-5 < - total_actions (image_shape (Demo.env_grey 2))
        ∨ total_actions (image_shape (Demo.env_grey 2)) ≤ -5)
       ∧ fits_int64 (-5 / (Z.of_nat (dim2 (image_shape (Demo.env_grey 2)))
                           * Z.of_nat (dim3 (image_shape (Demo.env_grey 2))))) = false).
Proof.
  apply (step_raises_outside_the_band Demo.flat_model 2 demo_classifier_ok
           (Demo.env_grey 2) (-5)).
  - reflexivity.
  - reflexivity.
Defined.

(** ** Rewards and compositions of steps *)

Section StepCompositions.
Context {I : Type} `{!PyIterator I}.
Variable model : Tensor → list (list R).
Variable K : nat.
Hypothesis model_ok : classifier_ok model K.
Implicit Type self : ImagePerturbEnv I.
Local Open Scope R_scope.

(** The reward of a step from [t], in closed form. *)
Lemma reward_run_zero_pixel self t c x y p0 p1 :
  length (t_data t) = numel (t_shape t) → in_bounds (t_shape t) 0 c x y →
  softmax_item (model t) (target_class self) = Ok p0 →
  softmax_item (model (zero_pixel t c x y)) (target_class self) = Ok p1 →
  reward_run self t (zero_pixel t c x y) p0 p1
  = if decide (pixel t 0 c x y = Some 0%Qc) then 0
    else (p0 - p1) * exp (- lambda_ self).
Proof.
  intros Hwf Hin Hp0 Hp1. unfold reward_run.
  change (t_shape (zero_pixel t c x y)) with (t_shape t).
  destruct (sparsity_zero_pixel t c x y Hwf Hin) as [-> ->].
  destruct (decide (pixel t 0 c x y = Some 0%Qc)) as [Hz|Hnz]; simpl.
  - apply zero_pixel_same in Hz; [|done..]. rewrite Hz, Hp0 in Hp1.
    injection Hp1 as <-. lra.
  - by rewrite Rmult_1_r.
Qed.

(** A valid step that does not end the episode, written out. *)
Lemma step_continue self a :
  env_ok K self = true → (0 ≤ a < total_actions (image_shape self))%Z →
  (current_attack_count self + 1 < attack_budget self)%Z →
  ∃ t c x y reward,
    heap self !! image self = Some t
    ∧ length (t_data t) = numel (t_shape t)
    ∧ decode_action (image_shape self) a = Ok (Z.of_nat c, Z.of_nat x, Z.of_nat y)
    ∧ in_bounds (t_shape t) 0 c x y
    ∧ (pixel t 0 c x y = Some 0%Qc → reward = 0)
    ∧ step model a self =
        (Ok (length (heap self), reward, false, EmptyInfo),
         after_step self (zero_pixel t c x y)).
Proof.
  intros Hok Ha Hlt.
  destruct (step_valid model K model_ok self a Hok Ha)
    as (t & c & x & y & p0 & p1 & Ht & _ & Hwf & Hd & Hin & Hp0 & Hp1 & Hstep).
  rewrite bool_decide_eq_false_2 in Hstep by lia.
  exists t, c, x, y, (reward_run self t (zero_pixel t c x y) p0 p1).
  split_and!; try done.
  intros Hz. rewrite reward_run_zero_pixel by done. by rewrite decide_True.
Qed.

(** X7. The sparsity penalty of a step is constant: a valid step earns
    reward 0 when the pixel it selects is already 0, and otherwise
    [(p_before - p_after) * exp(-lambda)], however many pixels the
    episode has changed so far. *)
Theorem step_reward_two_valued self a :
  env_ok K self = true → loader_ready self = true →
  (0 ≤ a < total_actions (image_shape self))%Z →
  ∃ t c x y obs reward done self' p_before p_after,
    heap self !! image self = Some t
    ∧ decode_action (image_shape self) a = Ok (Z.of_nat c, Z.of_nat x, Z.of_nat y)
    ∧ step model a self = (Ok (obs, reward, done, EmptyInfo), self')
    ∧ softmax_item (model t) (target_class self) = Ok p_before
    ∧ softmax_item (model (zero_pixel t c x y)) (target_class self) = Ok p_after
    ∧ reward = (if decide (pixel t 0 c x y = Some 0%Qc) then 0
                else (p_before - p_after) * exp (- lambda_ self)).
Proof.
  intros Hok Hready Ha.
  destruct (step_returns model K model_ok self a Hok Hready Ha)
    as (t & c & x & y & p0 & p1 & self' & Ht & Hwf & Hd & Hin & Hp0 & Hp1
        & Hstep & _).
  exists t, c, x, y. eexists _, _, _, self', p0, p1.
  split_and!; try done. by apply reward_run_zero_pixel.
Qed.

(** X8. Choosing the same action twice in a row: the second step returns a
    new object with the value the first returned, and earns reward 0. *)
Theorem repeated_action_earns_nothing self a :
  env_ok K self = true → (0 ≤ a < total_actions (image_shape self))%Z →
  (current_attack_count self + 2 < attack_budget self)%Z →
  ∃ obs1 obs2 reward1 self' t',
    steps model [a; a] self
    = (Ok [(obs1, reward1, false, EmptyInfo); (obs2, 0, false, EmptyInfo)], self')
    ∧ obs1 ≠ obs2
    ∧ heap self' !! obs1 = Some t'
    ∧ heap self' !! obs2 = Some t'.
Proof.
  intros Hok Ha Hlt.
  destruct (step_continue self a Hok Ha)
    as (t & c & x & y & r1 & Ht & Hwf & Hd & Hin & _ & Hstep1); [lia|].
  set (self1 := after_step self (zero_pixel t c x y)).
  assert (env_ok K self1 = true) as Hok1 by by apply env_ok_after_step.
  destruct (step_continue self1 a Hok1 Ha)
    as (t1 & c1 & x1 & y1 & r2 & Ht1 & Hwf1 & Hd1 & Hin1 & Hr2 & Hstep2).
  { subst self1. simpl. lia. }
  assert (t1 = zero_pixel t c x y) as ->.
  { subst self1. simpl in Ht1. rewrite list_lookup_middle in Ht1 by done.
    by injection Ht1. }
  assert (c1 = c ∧ x1 = x ∧ y1 = y) as (-> & -> & ->).
  { subst self1. simpl in Hd1. rewrite Hd in Hd1. injection Hd1. lia. }
  assert (pixel (zero_pixel t c x y) 0 c x y = Some 0%Qc) as Hzero.
  { by destruct (zero_pixel_perturbs t c x y Hwf Hin) as (_ & ? & _). }
  assert (zero_pixel (zero_pixel t c x y) c x y = zero_pixel t c x y) as Hsame.
  { by apply zero_pixel_same. }
  rewrite Hsame in Hstep2. rewrite (Hr2 Hzero) in Hstep2.
  eexists _, _, r1, _, (zero_pixel t c x y).
  rewrite steps_cons, Hstep1. fold self1. rewrite steps_cons, Hstep2. simpl.
  split; [reflexivity|]. rewrite length_app. simpl. split; [lia|].
  split.
  - rewrite lookup_app_l by (rewrite length_app; simpl; lia).
    by rewrite list_lookup_middle.
  - by rewrite list_lookup_middle by (rewrite length_app; simpl; lia).
Qed.

Lemma zero_pixel_commute t c x y c' x' y' :
  zero_pixel (zero_pixel t c x y) c' x' y'
  = zero_pixel (zero_pixel t c' x' y') c x y.
Proof.
  unfold zero_pixel. simpl. f_equal.
  destruct (decide (offset (t_shape t) 0 c x y = offset (t_shape t) 0 c' x' y'))
    as [->|Hne]; [done|].
  symmetry. by apply list_insert_insert_ne.
Qed.

(** Two steps inside an episode, written out. *)
Lemma two_steps_continue self a b :
  env_ok K self = true → (0 ≤ a < total_actions (image_shape self))%Z →
  (0 ≤ b < total_actions (image_shape self))%Z →
  (current_attack_count self + 2 < attack_budget self)%Z →
  ∃ t ca xa ya cb xb yb outs self',
    heap self !! image self = Some t
    ∧ decode_action (image_shape self) a = Ok (Z.of_nat ca, Z.of_nat xa, Z.of_nat ya)
    ∧ decode_action (image_shape self) b = Ok (Z.of_nat cb, Z.of_nat xb, Z.of_nat yb)
    ∧ steps model [a; b] self = (Ok outs, self')
    ∧ heap self' !! image self' = Some (zero_pixel (zero_pixel t ca xa ya) cb xb yb).
Proof.
  intros Hok Ha Hb Hlt.
  destruct (step_continue self a Hok Ha)
    as (t & c & x & y & r1 & Ht & Hwf & Hd & Hin & _ & Hstep1); [lia|].
  set (self1 := after_step self (zero_pixel t c x y)).
  assert (env_ok K self1 = true) as Hok1 by by apply env_ok_after_step.
  destruct (step_continue self1 b Hok1 Hb)
    as (t1 & c1 & x1 & y1 & r2 & Ht1 & Hwf1 & Hd1 & Hin1 & _ & Hstep2).
  { subst self1. simpl. lia. }
  assert (t1 = zero_pixel t c x y) as ->.
  { subst self1. simpl in Ht1. rewrite list_lookup_middle in Ht1 by done.
    by injection Ht1. }
  exists t, c, x, y, c1, x1, y1. eexists _, _.
  split; [done|]. split; [done|]. split; [exact Hd1|].
  rewrite steps_cons, Hstep1. fold self1. rewrite steps_cons, Hstep2. simpl.
  split; [reflexivity|].
  unfold after_step. env_simpl. by rewrite list_lookup_middle.
Qed.

(** X9. Two steps inside an episode commute on the image: taking the actions
    [a] and [b] in either order leaves the environment holding the same
    image value. *)
Theorem steps_commute_on_image self a b :
  env_ok K self = true → (0 ≤ a < total_actions (image_shape self))%Z →
  (0 ≤ b < total_actions (image_shape self))%Z →
  (current_attack_count self + 2 < attack_budget self)%Z →
  ∃ outs1 self1 outs2 self2 t',
    steps model [a; b] self = (Ok outs1, self1)
    ∧ steps model [b; a] self = (Ok outs2, self2)
    ∧ heap self1 !! image self1 = Some t'
    ∧ heap self2 !! image self2 = Some t'.
Proof.
  intros Hok Ha Hb Hlt.
  destruct (two_steps_continue self a b Hok Ha Hb Hlt)
    as (t & ca & xa & ya & cb & xb & yb & outs1 & self1 & Ht & Hda & Hdb
        & Hsteps1 & Himg1).
  destruct (two_steps_continue self b a Hok Hb Ha Hlt)
    as (t2 & cb' & xb' & yb' & ca' & xa' & ya' & outs2 & self2 & Ht2 & Hdb' & Hda'
        & Hsteps2 & Himg2).
  assert (t2 = t) as -> by congruence.
  assert (ca' = ca ∧ xa' = xa ∧ ya' = ya) as (-> & -> & ->).
  { rewrite Hda in Hda'. injection Hda'. lia. }
  assert (cb' = cb ∧ xb' = xb ∧ yb' = yb) as (-> & -> & ->).
  { rewrite Hdb in Hdb'. injection Hdb'. lia. }
  exists outs1, self1, outs2, self2. eexists.
  split; [done|]. split; [done|]. split; [exact Himg1|].
  by rewrite zero_pixel_commute.
Qed.
End StepCompositions.

Lemma step_reward_two_valued_witness :
  ∃ t c x y obs reward done self' p_before p_after,
    heap (Demo.env_grey 2) !! image (Demo.env_grey 2) = Some t
    ∧ decode_action (image_shape (Demo.env_grey 2)) 3
      = Ok (Z.of_nat c, Z.of_nat x, Z.of_nat y)
    ∧ step Demo.flat_model 3 (Demo.env_grey 2)
      = (Ok (obs, reward, done, EmptyInfo), self')
    ∧ softmax_item (Demo.flat_model t) (target_class (Demo.env_grey 2)) = Ok p_before
    ∧ softmax_item (Demo.flat_model (zero_pixel t c x y))
        (target_class (Demo.env_grey 2)) = Ok p_after
    ∧ reward = (if decide (pixel t 0 c x y = Some 0%Qc) then 0
                else (p_before - p_after) * exp (- lambda_ (Demo.env_grey 2)))%R.
Proof.
  apply (step_reward_two_valued Demo.flat_model 2 demo_classifier_ok
           (Demo.env_grey 2) 3).
  - reflexivity.
  - reflexivity.
  - unfold total_actions. simpl. lia.
Defined.

Lemma repeated_action_earns_nothing_witness :
  ∃ obs1 obs2 reward1 self' t',
    steps Demo.flat_model [3; 3] (Demo.env_grey 5)
    = (Ok [(obs1, reward1, false, EmptyInfo); (obs2, 0%R, false, EmptyInfo)], self')
    ∧ obs1 ≠ obs2
    ∧ heap self' !! obs1 = Some t'
    ∧ heap self' !! obs2 = Some t'.
Proof.
  apply (repeated_action_earns_nothing Demo.flat_model 2 demo_classifier_ok
           (Demo.env_grey 5) 3).
  - reflexivity.
  - unfold total_actions. simpl. lia.
  - simpl. lia.
Defined.

Lemma steps_commute_on_image_witness :
  ∃ outs1 self1 outs2 self2 t',
    steps Demo.flat_model [0; 3] (Demo.env_grey 5) = (Ok outs1, self1)
    ∧ steps Demo.flat_model [3; 0] (Demo.env_grey 5) = (Ok outs2, self2)
    ∧ heap self1 !! image self1 = Some t'
    ∧ heap self2 !! image self2 = Some t'.
Proof.
  apply (steps_commute_on_image Demo.flat_model 2 demo_classifier_ok
           (Demo.env_grey 5) 0 3).
  - reflexivity.
  - unfold total_actions. simpl. lia.
  - unfold total_actions. simpl. lia.
  - simpl. lia.
Defined.

(** ** The observation space *)

Lemma in_box_zero_pixel (b : Box) (t : Tensor) (c x y : nat) :
  box_low b ≤ 0 ≤ box_high b → in_box b t → in_box b (zero_pixel t c x y).
Proof.
  intros [Hlow Hhigh] [Hshape Hall]. split; [done|]. simpl.
  apply Forall_insert; [done|]. split.
  - by rewrite <- Z2Qc_inj_0, <- Z2Qc_inj_le.
  - by rewrite <- Z2Qc_inj_0, <- Z2Qc_inj_le.
Qed.

Section ObservationSpace.
Context {I : Type} `{!PyIterator I}.
Variable model : Tensor → list (list R).
Variable K : nat.
Hypothesis model_ok : classifier_ok model K.
Implicit Type self : ImagePerturbEnv I.

(** X10. The observation space is an invariant of stepping: when the held
    image lies in [observation_space] (a box whose bounds include 0, as
    the [Box(low=0, high=1)] of the constructor), so does the observation
    every valid step returns, and so does the image the environment holds
    afterwards, also across the end of an episode. *)
Theorem step_observation_in_space self a t :
  env_ok K self = true → loader_ready self = true →
  0 ≤ a < total_actions (image_shape self) →
  heap self !! image self = Some t →
  in_box (observation_space self) t →
  box_low (observation_space self) ≤ 0 ≤ box_high (observation_space self) →
  ∃ obs reward done self' t',
    step model a self = (Ok (obs, reward, done, EmptyInfo), self')
    ∧ heap self' !! obs = Some t'
    ∧ heap self' !! image self' = Some t'
    ∧ in_box (observation_space self') t'.
Proof.
  intros Hok Hready Ha Ht Hbox Hzero.
  destruct (step_returns model K model_ok self a Hok Hready Ha)
    as (t1 & c & x & y & p0 & p1 & self' & Ht1 & _ & _ & _ & _ & _
        & Hstep & Hobs & Himg & _).
  assert (t1 = t) as -> by congruence.
  pose proof (calls_keep_existing_objects_aux model self a) as Hkeep.
  rewrite Hstep in Hkeep. destruct Hkeep as (_ & _ & _ & Hspace & _).
  eexists _, _, _, self', (zero_pixel t c x y).
  split; [exact Hstep|]. split; [done|]. split; [by rewrite Himg|].
  simpl in Hspace. rewrite Hspace. by apply in_box_zero_pixel.
Qed.
End ObservationSpace.

Lemma step_observation_in_space_witness :
  ∃ obs reward done self' t',
    step Demo.flat_model 3 (Demo.env_grey 2) = (Ok (obs, reward, done, EmptyInfo), self')
    ∧ heap self' !! obs = Some t'
    ∧ heap self' !! image self' = Some t'
    ∧ in_box (observation_space self') t'.
Proof.
  apply (step_observation_in_space Demo.flat_model 2 demo_classifier_ok
           (Demo.env_grey 2) 3 Demo.grey).
  - reflexivity.
  - reflexivity.
  - unfold total_actions. simpl. lia.
  - reflexivity.
  - split; [reflexivity|]. simpl. repeat constructor; vm_compute; discriminate.
  - simpl. lia.
Defined.

(** ** The driver loop and the snapshot *)

Lemma count_differences_insert (l0 l : list Qc) (k : nat) (v : Qc) :
  length l0 = length l →
  (length (filter (λ d : Qc, d ≠ 0%Qc) (zip_with Qcminus l0 (<[k := v]> l)))
   ≤ S (length (filter (λ d : Qc, d ≠ 0%Qc) (zip_with Qcminus l0 l))))%nat.
Proof.
  revert l k. induction l0 as [|a l0 IH]; intros [|b l] k Hlen; simplify_eq/=;
    [lia|].
  destruct k as [|k]; simpl; rewrite !filter_cons.
  - repeat case_decide; simpl; lia.
  - specialize (IH l k Hlen). repeat case_decide; simpl; lia.
Qed.

Lemma sparsity_zero_pixel_le (t0 t : Tensor) (c x y : nat) :
  length (t_data t) = length (t_data t0) →
  (sparsity t0 (zero_pixel t c x y) ≤ S (sparsity t0 t))%nat.
Proof.
  intros Hlen. unfold sparsity, differing_positions, zero_pixel. simpl.
  rewrite <- !count_nonzero_difference by (by rewrite ?length_insert).
  by apply count_differences_insert.
Qed.

Lemma zeroed_from_zero_pixel (t0 t : Tensor) (c x y : nat) :
  zeroed_from t0 t → zeroed_from t0 (zero_pixel t c x y).
Proof.
  intros (Hshape & Hlen & Hpix). split; [done|]. simpl.
  split; [by rewrite length_insert|].
  intros k v Hk.
  destruct (decide (k = offset (t_shape t) 0 c x y)) as [->|Hne].
  - apply list_lookup_insert_Some in Hk as [(_ & <- & _)|[? _]]; [by left|done].
  - rewrite list_lookup_insert_ne in Hk by done. by apply Hpix.
Qed.

Lemma zeroed_from_refl (t : Tensor) : zeroed_from t t.
Proof. split; [done|]. split; [done|]. intros k v Hk. by right. Qed.

Section DriverLoop.
Context {I : Type} `{!PyIterator I}.
Variable model : Tensor → list (list R).
Variable K : nat.
Hypothesis model_ok : classifier_ok model K.
Implicit Type self : ImagePerturbEnv I.

Lemma main_loop_continue a rest self r self1 :
  step model a self = (Ok r, self1) → done_of r = false →
  main_loop model (a :: rest) self =
    match main_loop model rest self1 with
    | (Ok rs, self2) => (Ok (r :: rs), self2)
    | (Raise e, self2) => (Raise e, self2)
    end.
Proof.
  intros Hstep Hdone. simpl. unfold mbind at 1, M_bind at 1. rewrite Hstep.
  rewrite Hdone. unfold mbind, M_bind, mret, M_ret.
  by destruct (main_loop model rest self1) as [[rs|e] self2].
Qed.

(** The loop inside an episode: [n] valid actions with more than [n]
    steps left. *)
Lemma main_loop_inside (n : nat) : ∀ samples self t0 t m,
  length samples = n → env_ok K self = true →
  current_attack_count self + Z.of_nat n < attack_budget self →
  Forall (λ a, 0 ≤ a < total_actions (image_shape self)) samples →
  heap self !! image self = Some t →
  heap self !! original_image self = Some t0 →
  zeroed_from t0 t → (sparsity t0 t ≤ m)%nat →
  ∃ outs self' t',
    main_loop model samples self = (Ok outs, self')
    ∧ steps model samples self = (Ok outs, self')
    ∧ Forall (λ r, done_of r = false) outs
    ∧ dataloader self' = dataloader self
    ∧ original_image self' = original_image self
    ∧ heap self' !! original_image self' = Some t0
    ∧ heap self' !! image self' = Some t'
    ∧ zeroed_from t0 t'
    ∧ (sparsity t0 t' ≤ m + n)%nat.
Proof.
  induction n as [|n IH]; intros samples self t0 t m Hlen Hok Hlt Hall Ht Ht0 Hz Hs.
  - destruct samples; [|done]. exists [], self, t.
    split_and!; try done. lia.
  - destruct samples as [|a rest]; [done|]. injection Hlen as Hlen.
    apply Forall_cons in Hall as [Ha Hrest].
    destruct (step_valid model K model_ok self a Hok Ha)
      as (t1 & c & x & y & p0 & p1 & Ht1 & _ & _ & _ & _ & _ & _ & Hstep).
    rewrite bool_decide_eq_false_2 in Hstep by lia.
    assert (t1 = t) as -> by congruence.
    set (self1 := after_step self (zero_pixel t c x y)) in *.
    destruct (IH rest self1 t0 (zero_pixel t c x y) (S m))
      as (outs & self' & t' & Hloop & Hsteps & Hdone & Hdl & Horig & Hsnap
          & Himg & Hz' & Hs'); try done.
    + by apply env_ok_after_step.
    + subst self1. simpl. lia.
    + subst self1. unfold after_step. env_simpl. by rewrite list_lookup_middle.
    + subst self1. unfold after_step. env_simpl.
      rewrite lookup_app_l; [done|]. by eapply lookup_lt_Some.
    + by apply zeroed_from_zero_pixel.
    + destruct Hz as (_ & Hl & _).
      pose proof (sparsity_zero_pixel_le t0 t c x y Hl). lia.
    + eexists _, self', t'.
      rewrite (main_loop_continue a rest self _ self1 Hstep eq_refl), Hloop.
      rewrite steps_cons, Hstep, Hsteps.
      split_and!; try done.
      * by apply Forall_cons.
      * lia.
Qed.

(** X4. The loop of [__main__] runs [attack_budget - 1] steps on a new
    episode. None of them reports [done], so the loop never calls [reset]
    and never draws from the loader; the snapshot [original_image] still
    holds the image the episode started from; the image held at the end
    is that image with some pixels set to 0, and the number of changed
    pixels the block prints is at most the number of steps. *)
Theorem main_loop_changes_at_most_one_pixel_per_step self samples t0 :
  env_ok K self = true → current_attack_count self = 0 →
  Z.of_nat (length samples) = attack_budget self - 1 →
  Forall (λ a, 0 ≤ a < total_actions (image_shape self)) samples →
  heap self !! image self = Some t0 →
  heap self !! original_image self = Some t0 →
  ∃ outs self' t',
    main_loop model samples self = (Ok outs, self')
    ∧ steps model samples self = (Ok outs, self')
    ∧ Forall (λ r, done_of r = false) outs
    ∧ dataloader self' = dataloader self
    ∧ heap self' !! original_image self' = Some t0
    ∧ heap self' !! image self' = Some t'
    ∧ zeroed_from t0 t'
    ∧ (sparsity t0 t' ≤ length samples)%nat.
Proof.
  intros Hok Hc Hn Hall Ht Ht0.
  destruct (main_loop_inside (length samples) samples self t0 t0 0)
    as (outs & self' & t' & ? & ? & ? & ? & ? & ? & ? & ? & ?); try done.
  - lia.
  - apply zeroed_from_refl.
  - rewrite sparsity_self. lia.
  - exists outs, self', t'. split_and!; done.
Qed.
End DriverLoop.

Lemma main_loop_changes_at_most_one_pixel_per_step_witness :
  ∃ outs self' t',
    main_loop Demo.flat_model [3; 0; 3] (Demo.env_grey 4) = (Ok outs, self')
    ∧ steps Demo.flat_model [3; 0; 3] (Demo.env_grey 4) = (Ok outs, self')
    ∧ Forall (λ r, done_of r = false) outs
    ∧ dataloader self' = dataloader (Demo.env_grey 4)
    ∧ heap self' !! original_image self' = Some Demo.grey
    ∧ heap self' !! image self' = Some t'
    ∧ zeroed_from Demo.grey t'
    ∧ (sparsity Demo.grey t' ≤ length [3; 0; 3])%nat.
Proof.
  apply (main_loop_changes_at_most_one_pixel_per_step Demo.flat_model 2
           demo_classifier_ok (Demo.env_grey 4) [3; 0; 3] Demo.grey).
  - reflexivity.
  - reflexivity.
  - reflexivity.
  - unfold total_actions. simpl. repeat constructor; lia.
  - reflexivity.
  - reflexivity.
Defined.

(** ** The end of an episode under a resetting caller *)

Section ResettingCaller.
Context {I : Type} `{!PyIterator I}.
Variable model : Tensor → list (list R).
Variable K : nat.
Hypothesis model_ok : classifier_ok model K.
Implicit Type self : ImagePerturbEnv I.

Lemma draw_two (it it2 : I) (d1 d2 : Tensor * Z) :
  draw_n 2 it = (Ok [d1; d2], it2) →
  ∃ it1, py_next it = (Ok d1, it1) ∧ py_next it1 = (Ok d2, it2).
Proof.
  simpl. destruct (py_next it) as [[x1|e] it1] eqn:Hn1; [|done].
  destruct (py_next it1) as [[x2|e] it2'] eqn:Hn2; [|done].
  intros [= <- <- <-]. by exists it1.
Qed.

(** X2. A caller that resets after [done], as the loop of [__main__] does,
    makes every end of an episode consume two pairs from the loader: the
    one the internal reset of [step] draws is never held as the image,
    and the environment goes on with the second pair, image and target
    class together, a distinct clone of that image as its snapshot, and
    the counter at 0. *)
Theorem done_then_reset_skips_a_pair self a t1 l1 t2 l2 it2 :
  env_ok K self = true → 0 ≤ a < total_actions (image_shape self) →
  attack_budget self ≤ current_attack_count self + 1 →
  draw_n 2 (dataloader self) = (Ok [(t1, l1); (t2, l2)], it2) →
  ∃ obs reward self',
    main_loop model [a] self = (Ok [(obs, reward, true, EmptyInfo)], self')
    ∧ dataloader self' = it2
    ∧ heap self' !! image self' = Some t2
    ∧ target_class self' = l2
    ∧ heap self' !! original_image self' = Some t2
    ∧ image self' ≠ original_image self'
    ∧ current_attack_count self' = 0.
Proof.
  intros Hok Ha Hb Hdraw.
  destruct (draw_two _ _ _ _ Hdraw) as (it1 & Hn1 & Hn2).
  destruct (step_valid model K model_ok self a Hok Ha)
    as (t & c & x & y & p0 & p1 & Ht & _ & _ & _ & _ & _ & _ & Hstep).
  rewrite bool_decide_eq_true_2, Hn1 in Hstep by done.
  eexists _, _, _. simpl. unfold mbind at 1, M_bind at 1. rewrite Hstep.
  unfold done_of at 1. simpl. unfold mbind at 1, M_bind at 1.
  unfold mbind at 1, M_bind at 1. rewrite reset_run.
  unfold after_done at 1. env_simpl. rewrite Hn2.
  unfold mbind, M_bind, mret, M_ret. simpl.
  split; [reflexivity|]. simpl. rewrite !length_app. simpl.
  split_and!; try done.
  - rewrite <- app_assoc. simpl.
    rewrite lookup_app_r by lia.
    by replace (length (heap self) + 3 - length (heap self))%nat with 3%nat by lia.
  - rewrite <- app_assoc. simpl.
    rewrite lookup_app_r by lia.
    by replace (length (heap self) + 3 + 1 - length (heap self))%nat with 4%nat by lia.
  - lia.
Qed.
End ResettingCaller.

Lemma done_then_reset_skips_a_pair_witness :
  ∃ obs reward self',
    main_loop Demo.flat_model [0] (Demo.env_grey 1)
    = (Ok [(obs, reward, true, EmptyInfo)], self')
    ∧ dataloader self' = mkEndless Demo.loader (mkOnePass [(Demo.white, 1)])
    ∧ heap self' !! image self' = Some Demo.grey
    ∧ target_class self' = 0
    ∧ heap self' !! original_image self' = Some Demo.grey
    ∧ image self' ≠ original_image self'
    ∧ current_attack_count self' = 0.
Proof.
  apply (done_then_reset_skips_a_pair Demo.flat_model 2 demo_classifier_ok
           (Demo.env_grey 1) 0 Demo.white 1 Demo.grey 0).
  - reflexivity.
  - unfold total_actions. simpl. lia.
  - simpl. lia.
  - reflexivity.
Defined.

(** ** A one-pass loader that runs out *)

Section OnePassLoader.
Variable model : Tensor → list (list R).
Variable K : nat.
Hypothesis model_ok : classifier_ok model K.
Implicit Type self : ImagePerturbEnv OnePass.

(** X3. On the plain iterator of a finite loader, as [__main__] passes it,
    the environment gets stuck once the loader is exhausted and the
    budget is reached: the step raises [StopIteration] from its internal
    reset, after the counter was incremented and before the perturbed
    image was assigned, so the held image is the old one, the counter is
    past the budget, and the environment is stuck in the same way for
    every later call. *)
Theorem exhausted_loader_sticks self a :
  stuck K self → 0 ≤ a < total_actions (image_shape self) →
  ∃ self',
    step model a self = (Raise StopIteration, self')
    ∧ image self' = image self
    ∧ target_class self' = target_class self
    ∧ current_attack_count self' = current_attack_count self + 1
    ∧ image_shape self' = image_shape self
    ∧ stuck K self'.
Proof.
  intros (Hok & Hrem & Hb) Ha.
  destruct (step_valid model K model_ok self a Hok Ha)
    as (t & c & x & y & p0 & p1 & Ht & _ & _ & _ & _ & _ & _ & Hstep).
  rewrite bool_decide_eq_true_2 in Hstep by done.
  unfold py_next, OnePass_next in Hstep. rewrite Hrem in Hstep.
  eexists. split; [exact Hstep|]. simpl. split_and!; try done.
  destruct (env_ok_elim _ _ Hok) as (t0 & Ht0 & Hs & Hwf & H0 & H2 & H3 & Htc).
  split; [|split; [done|simpl; lia]].
  apply (env_ok_intro K _ t0); simpl; try done.
  rewrite lookup_app_l; [done|]. by eapply lookup_lt_Some.
Qed.
End OnePassLoader.

Lemma demo_one_pass_init : DemoOnePass.env0 = Ok DemoOnePass.env_exhausted.
Proof. reflexivity. Qed.

Lemma exhausted_loader_sticks_witness :
  ∃ self',
    step Demo.flat_model 3 DemoOnePass.env_exhausted = (Raise StopIteration, self')
    ∧ image self' = image DemoOnePass.env_exhausted
    ∧ target_class self' = target_class DemoOnePass.env_exhausted
    ∧ current_attack_count self'
      = current_attack_count DemoOnePass.env_exhausted + 1
    ∧ image_shape self' = image_shape DemoOnePass.env_exhausted
    ∧ stuck 2 self'.
Proof.
  apply (exhausted_loader_sticks Demo.flat_model 2 demo_classifier_ok
           DemoOnePass.env_exhausted 3).
  - split; [reflexivity|]. split; [reflexivity|]. simpl. lia.
  - unfold total_actions. simpl. lia.
Defined.

(** ** Further properties of [compute_reward] *)

Section RewardProperties.
Context {I : Type} `{!PyIterator I}.
Variable model : Tensor → list (list R).
Variable K : nat.
Hypothesis model_ok : classifier_ok model K.
Implicit Type self : ImagePerturbEnv I.
Local Open Scope R_scope.

(** X13. The reward is antisymmetric in its two images: exchanging the
    original and the perturbed image negates it, the sparsity being the
    same in both directions. *)
Theorem compute_reward_antisymmetric self o p to tp :
  heap self !! o = Some to → heap self !! p = Some tp →
  t_shape tp = t_shape to → length (t_data tp) = length (t_data to) →
  (0 ≤ target_class self < Z.of_nat K)%Z →
  ∃ r, compute_reward model o p self = (Ok r, self)
    ∧ compute_reward model p o self = (Ok (- r), self).
Proof.
  intros Ho Hp Hs Hlen Htc.
  destruct (softmax_item_ok model K to _ model_ok Htc) as (p0 & Hp0 & _).
  destruct (softmax_item_ok model K tp _ model_ok Htc) as (p1 & Hp1 & _).
  eexists. split; [by eapply compute_reward_run|].
  erewrite (compute_reward_run model self p o tp to p1 p0); try done.
  rewrite !count_nonzero_sparsity by done.
  assert (sparsity to tp = sparsity tp to) as ->.
  { unfold sparsity. by rewrite differing_positions_sym. }
  do 2 f_equal. lra.
Qed.

(** X14. A target class outside [-K, K), for a classifier with [K] classes,
    makes [compute_reward] raise an [IndexError]; the environment is left
    as it was. *)
Theorem compute_reward_invalid_target self o p to tp :
  heap self !! o = Some to → heap self !! p = Some tp →
  (target_class self < - Z.of_nat K ∨ Z.of_nat K ≤ target_class self)%Z →
  compute_reward model o p self = (Raise IndexError, self).
Proof.
  intros Ho Hp Htc. unfold compute_reward. run_monad. rewrite Ho, Hp.
  pose proof (model_ok to) as Hrow.
  unfold softmax_item, softmax. rewrite list_lookup_fmap.
  destruct (model to !! 0%nat) as [row|]; simplify_eq/=.
  assert (length (softmax_row row) = length row) as -> by apply length_fmap.
  destruct Htc as [Hlow|Hhigh].
  - by rewrite py_index_below.
  - by rewrite py_index_out.
Qed.
End RewardProperties.

Lemma compute_reward_antisymmetric_witness :
  ∃ r, compute_reward Demo.flat_model 0%nat 2%nat Demo.env_after_done
       = (Ok r, Demo.env_after_done)
    ∧ compute_reward Demo.flat_model 2%nat 0%nat Demo.env_after_done
      = (Ok (- r)%R, Demo.env_after_done).
Proof.
  apply (compute_reward_antisymmetric Demo.flat_model 2 demo_classifier_ok
           Demo.env_after_done 0%nat 2%nat Demo.grey Demo.grey_0).
  - reflexivity.
  - reflexivity.
  - reflexivity.
  - reflexivity.
  - simpl. lia.
Defined.

Lemma compute_reward_invalid_target_witness :
  compute_reward Demo.flat_model 0%nat 1%nat (set_target_class 2 (Demo.env_grey 2))
  = (Raise IndexError, set_target_class 2 (Demo.env_grey 2)).
Proof.
  apply (compute_reward_invalid_target Demo.flat_model 2 demo_classifier_ok
           (set_target_class 2 (Demo.env_grey 2)) 0%nat 1%nat Demo.grey Demo.grey).
  - reflexivity.
  - reflexivity.
  - right. simpl. lia.
Defined.

(** * The selection of the best run in [src/train.py] *)

Section BestRun.
Local Open Scope Qc_scope.

(** The scan keeps the first run whose mean reward is maximal. *)
Lemma max_scan_spec (rest : list Qc) : ∀ (pre : list Qc) (best : nat) (best_val : Qc),
  pre !! best = Some best_val →
  (∀ j v, pre !! j = Some v → v ≤ best_val) →
  (∀ j v, (j < best)%nat → pre !! j = Some v → v < best_val) →
  ∃ v, (pre ++ rest) !! max_scan best best_val (length pre) rest = Some v
    ∧ (∀ j w, (pre ++ rest) !! j = Some w → w ≤ v)
    ∧ (∀ j w, (j < max_scan best best_val (length pre) rest)%nat →
              (pre ++ rest) !! j = Some w → w < v).
Proof.
  induction rest as [|val rest IH]; intros pre best best_val Hbest Hmax Hfirst.
  - simpl. rewrite app_nil_r. by exists best_val.
  - simpl. replace (S (length pre)) with (length (pre ++ [val]))
      by (rewrite length_app; simpl; lia).
    rewrite (cons_middle val pre rest), app_assoc.
    case_decide as Hlt.
    + apply IH.
      * by rewrite list_lookup_middle.
      * intros j v Hj. apply lookup_snoc_Some in Hj as [[_ Hj]|[_ <-]]; [|done].
        apply Qclt_le_weak. eapply Qcle_lt_trans; [by eapply Hmax|done].
      * intros j v Hjlt Hj. rewrite lookup_app_l in Hj by done.
        eapply Qcle_lt_trans; [by eapply Hmax|done].
    + apply Qcnot_lt_le in Hlt. apply IH.
      * rewrite lookup_app_l; [done|]. by eapply lookup_lt_Some.
      * intros j v Hj. apply lookup_snoc_Some in Hj as [[_ Hj]|[_ <-]]; [|done].
        by eapply Hmax.
      * intros j v Hjlt Hj.
        assert (best < length pre)%nat by by eapply lookup_lt_Some.
        rewrite lookup_app_l in Hj by lia. by eapply Hfirst.
Qed.

(** X15. The run [train.py] saves is the first run with the greatest mean
    reward: no run has a greater mean reward, and every earlier run has a
    strictly smaller one; it is the model of that run that is kept. With
    no run at all ([--num_runs 0]) the selection fails. *)
Theorem best_run_is_first_maximum {P : Type} (models : list (P * Qc * Qc)) :
  (best_run models = None ↔ models = [])
  ∧ (best_model models = None ↔ models = [])
  ∧ ∀ run, best_run models = Some run →
      ∃ model mean_reward std_reward,
        models !! run = Some (model, mean_reward, std_reward)
        ∧ best_model models = Some (model, mean_reward)
        ∧ (∀ j m v s, models !! j = Some (m, v, s) → v ≤ mean_reward)
        ∧ (∀ j m v s, (j < run)%nat → models !! j = Some (m, v, s) →
                      v < mean_reward).
Proof.
  assert (∀ run, best_run models = Some run →
      ∃ model mean_reward std_reward,
        models !! run = Some (model, mean_reward, std_reward)
        ∧ best_model models = Some (model, mean_reward)
        ∧ (∀ j m v s, models !! j = Some (m, v, s) → v ≤ mean_reward)
        ∧ (∀ j m v s, (j < run)%nat → models !! j = Some (m, v, s) →
                      v < mean_reward)) as Hspec.
  { intros run Hrun. unfold best_model. rewrite Hrun. simpl.
    destruct models as [|[[m0 v0] s0] rest]; [done|].
    simpl in Hrun. injection Hrun as Hrun.
    destruct (max_scan_spec (rest.*1.*2) [v0] 0%nat v0) as (v & Hv & Hmax & Hfirst).
    - done.
    - intros [|j] w Hj; simplify_eq/=. apply Qcle_refl.
    - intros j w Hj. lia.
    - simpl in Hv, Hmax, Hfirst. rewrite Hrun in Hv, Hfirst.
      change (v0 :: rest.*1.*2) with (((m0, v0, s0) :: rest).*1.*2) in *.
      rewrite !list_lookup_fmap in Hv.
      destruct (((m0, v0, s0) :: rest) !! run) as [[[m v'] s]|] eqn:Hlook;
        simplify_eq/=.
      exists m, v, s. split; [done|]. split; [done|]. split.
      + intros j m' w s' Hj. apply (Hmax j).
        change (v0 :: rest.*1.*2) with (((m0, v0, s0) :: rest).*1.*2).
        by rewrite !list_lookup_fmap, Hj.
      + intros j m' w s' Hlt Hj. apply (Hfirst j); [done|].
        change (v0 :: rest.*1.*2) with (((m0, v0, s0) :: rest).*1.*2).
        by rewrite !list_lookup_fmap, Hj. }
  split; [|split; [|exact Hspec]].
  - destruct models as [|[[??]?]?]; simpl; split; done.
  - destruct models as [|[[m0 v0] s0] rest]; [done|]. split; [|done].
    intros Hnone. destruct (Hspec (max_scan 0 v0 1 (rest.*1.*2)) eq_refl)
      as (? & ? & ? & _ & Hbm & _). by rewrite Hbm in Hnone.
Qed.
End BestRun.

Lemma best_run_is_first_maximum_witness :
  ∃ model mean_reward std_reward,
    [(3%nat, Q2Qc (1 # 2), 0%Qc); (5%nat, 1%Qc, 0%Qc); (7%nat, 1%Qc, 0%Qc)] !! 1%nat
    = Some (model, mean_reward, std_reward)
    ∧ best_model
        [(3%nat, Q2Qc (1 # 2), 0%Qc); (5%nat, 1%Qc, 0%Qc); (7%nat, 1%Qc, 0%Qc)]
      = Some (model, mean_reward)
    ∧ (∀ j m v s,
         [(3%nat, Q2Qc (1 # 2), 0%Qc); (5%nat, 1%Qc, 0%Qc); (7%nat, 1%Qc, 0%Qc)] !! j
         = Some (m, v, s) → (v ≤ mean_reward)%Qc)
    ∧ (∀ j m v s, (j < 1)%nat →
         [(3%nat, Q2Qc (1 # 2), 0%Qc); (5%nat, 1%Qc, 0%Qc); (7%nat, 1%Qc, 0%Qc)] !! j
         = Some (m, v, s) → (v < mean_reward)%Qc).
Proof.
  apply (proj2 (proj2 (best_run_is_first_maximum
           [(3%nat, Q2Qc (1 # 2), 0%Qc); (5%nat, 1%Qc, 0%Qc); (7%nat, 1%Qc, 0%Qc)]))
           1%nat).
  reflexivity.
Defined.

(** * The evaluation loop of [src/image_classification_train.py] *)

Section Accuracy.
Context {Img : Type}.
Variable predict : Img → Z.
Implicit Type batch : list (Img * Z).

Lemma evaluate_from (test_loader : list (list (Img * Z))) (c n : Z) :
  foldl (λ '(total_correct, total_samples) batch,
           (total_correct
            + Z.of_nat (length (filter (λ p : Img * Z, predict p.1 = p.2) batch)),
            total_samples + Z.of_nat (length batch)))
        (c, n) test_loader
  = (c + Z.of_nat (length (filter (λ p : Img * Z, predict p.1 = p.2)
                             (concat test_loader))),
     n + Z.of_nat (length (concat test_loader))).
Proof.
  revert c n. induction test_loader as [|batch rest IH]; intros c n; simpl.
  - f_equal; lia.
  - rewrite IH, filter_app, !length_app. f_equal; lia.
Qed.

(** The totals of the loop are the number of correctly predicted samples
    and the number of samples over all batches. *)
Lemma evaluate_concat (test_loader : list (list (Img * Z))) :
  evaluate predict test_loader
  = (Z.of_nat (length (filter (λ p : Img * Z, predict p.1 = p.2)
                         (concat test_loader))),
     Z.of_nat (length (concat test_loader))).
Proof. unfold evaluate. by rewrite evaluate_from. Qed.

Lemma filter_all_length {A} (P : A → Prop) `{!∀ x, Decision (P x)} (l : list A) :
  length (filter P l) = length l ↔ Forall P l.
Proof.
  induction l as [|x l IH]; simpl; [by split|].
  rewrite filter_cons. pose proof (length_filter P l).
  case_decide; simpl.
  - rewrite Forall_cons. split.
    + intros [= Hlen]. split; [done|]. by apply IH.
    + intros [_ ?]. f_equal. by apply IH.
  - split; [lia|]. by intros [? _]%Forall_cons.
Qed.

Lemma filter_none_length {A} (P : A → Prop) `{!∀ x, Decision (P x)} (l : list A) :
  length (filter P l) = 0%nat ↔ Forall (λ x, ¬ P x) l.
Proof.
  induction l as [|x l IH]; simpl; [by split|].
  rewrite filter_cons. case_decide; simpl.
  - split; [done|]. by intros [? _]%Forall_cons.
  - rewrite Forall_cons, IH. split; [done|]. by intros [_ ?].
Qed.

Lemma Qc_ratio (c n : Z) :
  0 ≤ c ≤ n → 0 < n →
  (0 ≤ Qc_of_Z c / Qc_of_Z n ≤ 1)%Qc
  ∧ ((Qc_of_Z c / Qc_of_Z n)%Qc = 1%Qc ↔ c = n)
  ∧ ((Qc_of_Z c / Qc_of_Z n)%Qc = 0%Qc ↔ c = 0).
Proof.
  intros Hc Hn.
  assert (0 < Qc_of_Z n)%Qc as Hpos by (by rewrite <- Z2Qc_inj_0, <- Z2Qc_inj_lt).
  assert (Qc_of_Z n ≠ 0%Qc) as Hne.
  { intros Hz. rewrite Hz in Hpos. by apply (irreflexivity Qclt 0%Qc). }
  assert ((Qc_of_Z c / Qc_of_Z n) * Qc_of_Z n = Qc_of_Z c)%Qc as Hmul.
  { rewrite Qcmult_comm. by apply Qcmult_div_r. }
  split; [split|split].
  - apply (Qcmult_le_mono_pos_r _ _ (Qc_of_Z n) Hpos).
    rewrite Hmul, Qcmult_0_l, <- Z2Qc_inj_0, <- Z2Qc_inj_le. lia.
  - apply (Qcmult_le_mono_pos_r _ _ (Qc_of_Z n) Hpos).
    rewrite Hmul, Qcmult_1_l, <- Z2Qc_inj_le. lia.
  - split.
    + intros Hq. rewrite Hq, Qcmult_1_l in Hmul. symmetry. by apply Z2Qc_inj.
    + intros ->. by apply Qcmult_inv_r.
  - split.
    + intros Hq. rewrite Hq, Qcmult_0_l, <- Z2Qc_inj_0 in Hmul.
      symmetry. by apply Z2Qc_inj.
    + intros ->. unfold Qcdiv. by rewrite Z2Qc_inj_0, Qcmult_0_l.
Qed.

(** X16. The accuracy [train_model] logs: on a test loader with no sample the
    division raises [ZeroDivisionError] (and the model is not saved);
    otherwise the accuracy is a fraction between 0 and 1, equal to 1
    exactly when every sample is predicted correctly and to 0 exactly
    when none is. *)
Theorem accuracy_is_a_fraction (test_loader : list (list (Img * Z))) :
  (concat test_loader = [] →
   accuracy predict test_loader = Raise ZeroDivisionError)
  ∧ (concat test_loader ≠ [] →
     ∃ q, accuracy predict test_loader = Ok q
       ∧ (0 ≤ q ≤ 1)%Qc
       ∧ (q = 1%Qc ↔ Forall (λ p, predict p.1 = p.2) (concat test_loader))
       ∧ (q = 0%Qc ↔ Forall (λ p, predict p.1 ≠ p.2) (concat test_loader))).
Proof.
  unfold accuracy. rewrite evaluate_concat. split.
  - intros ->. done.
  - intros Hne.
    pose proof (length_filter (λ p : Img * Z, predict p.1 = p.2) (concat test_loader))
      as Hle.
    assert (0 < length (concat test_loader))%nat as Hpos.
    { destruct (concat test_loader); [done|simpl; lia]. }
    destruct (Z.eqb_spec (Z.of_nat (length (concat test_loader))) 0) as [|_]; [lia|].
    destruct (Qc_ratio
                (Z.of_nat (length (filter (λ p : Img * Z, predict p.1 = p.2)
                                     (concat test_loader))))
                (Z.of_nat (length (concat test_loader))))
      as (Hbounds & Hone & Hzero); [lia..|].
    eexists. split; [reflexivity|]. split; [done|]. split.
    + rewrite Hone, Nat2Z.inj_iff. apply filter_all_length.
    + rewrite Hzero.
      rewrite <- (filter_none_length (λ p : Img * Z, predict p.1 = p.2)). lia.
Qed.
End Accuracy.

Lemma accuracy_is_a_fraction_witness :
  accuracy (λ img : Z, img) [] = Raise ZeroDivisionError
  ∧ ∃ q, accuracy (λ img : Z, img) [[(1, 1); (2, 0)]; []; [(3, 3)]] = Ok q
      ∧ (0 ≤ q ≤ 1)%Qc
      ∧ (q = 1%Qc
         ↔ Forall (λ p : Z * Z, p.1 = p.2) (concat [[(1, 1); (2, 0)]; []; [(3, 3)]]))
      ∧ (q = 0%Qc
         ↔ Forall (λ p : Z * Z, p.1 ≠ p.2) (concat [[(1, 1); (2, 0)]; []; [(3, 3)]])).
Proof.
  split.
  - apply (proj1 (accuracy_is_a_fraction (λ img : Z, img) [])). reflexivity.
  - apply (proj2 (accuracy_is_a_fraction (λ img : Z, img)
                    [[(1, 1); (2, 0)]; []; [(3, 3)]])).
    discriminate.
Defined.

(** * Construction, resets and long runs of [src/env.py] *)

Section Construction.
Context {I D : Type} `{!PyIterator I, !PyIterable D I}.
Variable model : Tensor → list (list R).
Variable K : nat.
Hypothesis model_ok : classifier_ok model K.

(** X11. The action space the constructor declares is the set of actions
    [step] accepts: on a loader whose first pair is a well-formed image
    with no empty dimension and a label of the classifier, construction
    succeeds, declares [C*H*W] actions and the box [0, 1] of the image's
    shape, and every action of the declared space makes [step] return
    (when the loader can deliver at the end of an episode). When the
    first draw raises, construction raises the same exception. *)
Theorem constructed_env_accepts_its_action_space (loader : D) (budget : Z)
    (lam : R) (h : list Tensor) :
  (∀ e it', py_next (py_iter loader : I) = (Raise e, it') →
     init loader budget lam h = Raise e)
  ∧ ∀ t label it',
      py_next (py_iter loader : I) = (Ok (t, label), it') →
      length (t_data t) = numel (t_shape t) →
      (0 < dim0 (t_shape t))%nat → (0 < dim1 (t_shape t))%nat →
      (0 < dim2 (t_shape t))%nat → (0 < dim3 (t_shape t))%nat →
      0 ≤ label < Z.of_nat K →
      ∃ self, init loader budget lam h = Ok self
        ∧ action_space self = mkDiscrete (total_actions (t_shape t))
        ∧ observation_space self = mkBox 0 1 (t_shape t)
        ∧ heap self !! image self = Some t
        ∧ heap self !! original_image self = Some t
        ∧ image self ≠ original_image self
        ∧ h `prefix_of` heap self
        ∧ ∀ a, 0 ≤ a < discrete_n (action_space self) →
               loader_ready self = true →
               ∃ obs reward done self',
                 step model a self = (Ok (obs, reward, done, EmptyInfo), self').
Proof.
  split.
  - intros e it' Hnext. unfold init. by rewrite Hnext.
  - intros t label it' Hnext Hwf H0 _ H2 H3 Hlabel.
    destruct (init_env_ok K loader budget lam h t label it' Hnext Hwf H0 H2 H3 Hlabel)
      as (self & Hinit & Hok & Himg & _).
    exists self. split; [done|].
    unfold init in Hinit. rewrite Hnext in Hinit. injection Hinit as <-.
    simpl in *. split_and!; try done.
    + rewrite length_app. simpl.
      rewrite lookup_app_r by (rewrite length_app; simpl; lia).
      rewrite length_app. simpl.
      by replace (length h + 1 - (length h + 1))%nat with 0%nat by lia.
    + rewrite length_app. simpl. lia.
    + rewrite <- app_assoc. by apply prefix_app_r.
    + intros a Ha Hready.
      destruct (step_returns model K model_ok _ a Hok Hready Ha)
        as (? & ? & ? & ? & ? & ? & self' & _ & _ & _ & _ & _ & _ & Hstep & _).
      by eexists _, _, _, self'.
Qed.
End Construction.

Lemma constructed_env_accepts_its_action_space_witness :
  ∃ self, init Demo.endless 2 default_lambda [] = Ok self
    ∧ action_space self = mkDiscrete (total_actions (t_shape Demo.grey))
    ∧ observation_space self = mkBox 0 1 (t_shape Demo.grey)
    ∧ heap self !! image self = Some Demo.grey
    ∧ heap self !! original_image self = Some Demo.grey
    ∧ image self ≠ original_image self
    ∧ [] `prefix_of` heap self
    ∧ ∀ a, 0 ≤ a < discrete_n (action_space self) →
           loader_ready self = true →
           ∃ obs reward done self',
             step Demo.flat_model a self = (Ok (obs, reward, done, EmptyInfo), self').
Proof.
  apply (proj2 (constructed_env_accepts_its_action_space Demo.flat_model 2
                  demo_classifier_ok Demo.endless 2 default_lambda [])
           Demo.grey 0 (mkEndless Demo.loader (mkOnePass [(Demo.white, 1)]))).
  - reflexivity.
  - reflexivity.
  - simpl. lia.
  - simpl. lia.
  - simpl. lia.
  - simpl. lia.
  - lia.
Defined.

Section Resets.
Context {I : Type} `{!PyIterator I}.
Implicit Type self : ImagePerturbEnv I.

Lemma resets_succ n self :
  resets (S n) self =
    match reset self with
    | (Ok r, self1) =>
        match resets n self1 with
        | (Ok rs, self2) => (Ok (r :: rs), self2)
        | (Raise e, self2) => (Raise e, self2)
        end
    | (Raise e, self1) => (Raise e, self1)
    end.
Proof.
  simpl. unfold mbind, M_bind, mret, M_ret.
  destruct (reset self) as [[r|e] self1]; [|done].
  by destruct (resets n self1) as [[rs|e] self2].
Qed.

(** X12. [n] resets in a row consume exactly the next [n] pairs of the loader,
    in order, and allocate two objects each (the image drawn and its
    snapshot); the environment ends up holding the last pair drawn, image
    and target class together, with the counter at 0. *)
Theorem resets_hold_the_last_pair (n : nat) : ∀ self pairs it' t label,
  draw_n n (dataloader self) = (Ok pairs, it') →
  last pairs = Some (t, label) →
  ∃ refs self',
    resets n self = (Ok refs, self')
    ∧ length refs = n
    ∧ dataloader self' = it'
    ∧ length (heap self') = (length (heap self) + 2 * n)%nat
    ∧ heap self `prefix_of` heap self'
    ∧ heap self' !! image self' = Some t
    ∧ heap self' !! original_image self' = Some t
    ∧ image self' ≠ original_image self'
    ∧ target_class self' = label
    ∧ current_attack_count self' = 0.
Proof.
  induction n as [|n IH]; intros self pairs it' t label Hdraw Hlast.
  - simpl in Hdraw. by simplify_eq.
  - simpl in Hdraw.
    destruct (py_next (dataloader self)) as [[[t1 l1]|e] it1] eqn:Hnext; [|done].
    destruct (draw_n n it1) as [[rest|e] it2] eqn:Hrest; [|done].
    injection Hdraw as <- <-.
    rewrite resets_succ, reset_run, Hnext.
    set (self1 := mkEnv (heap self ++ [t1; t1]) it1 (length (heap self)) l1
                    (length (heap self) + 1)%nat (image_shape self)
                    (action_space self) (observation_space self)
                    (attack_budget self) (lambda_ self) 0).
    destruct rest as [|d rest].
    + destruct n; [|simpl in Hrest; by repeat case_match].
      simpl in Hrest. injection Hrest as <-. simpl in Hlast. injection Hlast as <- <-.
      eexists _, self1. simpl. split_and!; try done.
      * rewrite length_app. simpl. lia.
      * by apply prefix_app_r.
      * by rewrite list_lookup_middle.
      * rewrite lookup_app_r by lia.
        by replace (length (heap self) + 1 - length (heap self))%nat with 1%nat by lia.
      * lia.
    + destruct (IH self1 (d :: rest) it2 t label Hrest)
        as (refs & self' & Hres & Hlen & Hdl & Hheap & Hpre & Himg & Hsnap & Hne
            & Htc & Hc).
      { by rewrite last_cons_cons in Hlast. }
      rewrite Hres. eexists _, self'. split_and!; try done.
      * simpl. by rewrite Hlen.
      * rewrite Hheap. subst self1. simpl. rewrite length_app. simpl. lia.
      * etrans; [|exact Hpre]. subst self1. simpl. by apply prefix_app_r.
Qed.
End Resets.

Lemma resets_hold_the_last_pair_witness :
  ∃ refs self',
    resets 3 (Demo.env_grey 2) = (Ok refs, self')
    ∧ length refs = 3%nat
    ∧ dataloader self' = mkEndless Demo.loader (mkOnePass [])
    ∧ length (heap self') = (length (heap (Demo.env_grey 2)) + 2 * 3)%nat
    ∧ heap (Demo.env_grey 2) `prefix_of` heap self'
    ∧ heap self' !! image self' = Some Demo.white
    ∧ heap self' !! original_image self' = Some Demo.white
    ∧ image self' ≠ original_image self'
    ∧ target_class self' = 1
    ∧ current_attack_count self' = 0.
Proof.
  apply (resets_hold_the_last_pair 3 (Demo.env_grey 2)
           [(Demo.white, 1); (Demo.grey, 0); (Demo.white, 1)]).
  - reflexivity.
  - reflexivity.
Defined.

(** ** Stepping without a resetting caller *)

Lemma endless_next_valid (K : nat) (e : EndlessDataLoader) :
  endless_ok K e →
  ∃ t label e', py_next e = (Ok (t, label), e')
    ∧ 0 ≤ label < Z.of_nat K ∧ endless_ok K e'.
Proof.
  intros (Hne & Hall & Hrem). unfold py_next, EndlessDataLoader_next.
  unfold py_next, OnePass_next, py_iter, FiniteLoader_iter, endless_ok. simpl.
  destruct (remaining (iterator e)) as [|[t label] rest].
  - destruct (batches (wrapped e)) as [|[t label] rest] eqn:Hb; [done|].
    apply Forall_cons in Hall as Hall'. destruct Hall' as [Hl Hrest].
    exists t, label. eexists. split; [reflexivity|]. simpl. rewrite Hb.
    split; [done|]. split_and!; done.
  - apply Forall_cons in Hrem as [Hl Hrest].
    exists t, label. eexists. split; [reflexivity|]. simpl.
    split; [done|]. split_and!; done.
Qed.

Section LongRuns.
Variable model : Tensor → list (list R).
Variable K : nat.
Hypothesis model_ok : classifier_ok model K.
Implicit Type self : ImagePerturbEnv EndlessDataLoader.

Lemma steps_keep_the_image (actions : list Z) : ∀ self t0 t m,
  env_ok K self = true → endless_ok K (dataloader self) →
  Forall (λ a, 0 ≤ a < total_actions (image_shape self)) actions →
  heap self !! image self = Some t →
  zeroed_from t0 t → (sparsity t0 t ≤ m)%nat →
  ∃ outs self' t',
    steps model actions self = (Ok outs, self')
    ∧ length outs = length actions
    ∧ heap self' !! image self' = Some t'
    ∧ zeroed_from t0 t'
    ∧ (sparsity t0 t' ≤ m + length actions)%nat.
Proof.
  induction actions as [|a rest IH]; intros self t0 t m Hok Hdl Hall Ht Hz Hs.
  - exists [], self, t. split_and!; try done. simpl. lia.
  - apply Forall_cons in Hall as [Ha Hrest].
    destruct (step_valid model K model_ok self a Hok Ha)
      as (t1 & c & x & y & p0 & p1 & Ht1 & _ & _ & _ & _ & _ & _ & Hstep).
    assert (t1 = t) as -> by congruence.
    assert (sparsity t0 (zero_pixel t c x y) ≤ S m)%nat as Hs'.
    { destruct Hz as (_ & Hl & _).
      pose proof (sparsity_zero_pixel_le t0 t c x y Hl). lia. }
    pose proof (zeroed_from_zero_pixel t0 t c x y Hz) as Hz'.
    case_bool_decide.
    + destruct (endless_next_valid K _ Hdl) as (ti & label & e' & Hnext & Hl & Hdl').
      rewrite Hnext in Hstep.
      destruct (IH (after_done self (zero_pixel t c x y) ti label e') t0
                  (zero_pixel t c x y) (S m))
        as (outs & self' & t' & Hsteps & Hlen & Himg & Hzf & Hsf); try done.
      * by apply env_ok_after_done.
      * simpl. by rewrite list_lookup_middle.
      * eexists _, self', t'. rewrite steps_cons, Hstep, Hsteps.
        split_and!; try done; simpl; lia.
    + destruct (IH (after_step self (zero_pixel t c x y)) t0
                  (zero_pixel t c x y) (S m))
        as (outs & self' & t' & Hsteps & Hlen & Himg & Hzf & Hsf); try done.
      * by apply env_ok_after_step.
      * unfold after_step. env_simpl. by rewrite list_lookup_middle.
      * eexists _, self', t'. rewrite steps_cons, Hstep, Hsteps.
        split_and!; try done; simpl; lia.
Qed.

(** X1. Stepping alone never shows a second image. On an endless loader over
    a non-empty dataset with valid labels, any sequence of valid actions,
    of any length and across any number of episode ends, runs without
    raising, and the image held at the end is still the image held at
    the start with some pixels set to 0, at most one per step: the images
    the internal resets draw are never held. *)
Theorem stepping_alone_never_changes_the_image self actions t0 :
  env_ok K self = true → endless_ok K (dataloader self) →
  Forall (λ a, 0 ≤ a < total_actions (image_shape self)) actions →
  heap self !! image self = Some t0 →
  ∃ outs self' t',
    steps model actions self = (Ok outs, self')
    ∧ length outs = length actions
    ∧ heap self' !! image self' = Some t'
    ∧ zeroed_from t0 t'
    ∧ (sparsity t0 t' ≤ length actions)%nat.
Proof.
  intros Hok Hdl Hall Ht.
  destruct (steps_keep_the_image actions self t0 t0 0)
    as (outs & self' & t' & ? & ? & ? & ? & ?); try done.
  - apply zeroed_from_refl.
  - rewrite sparsity_self. lia.
  - by exists outs, self', t'.
Qed.
End LongRuns.

Lemma stepping_alone_never_changes_the_image_witness :
  ∃ outs self' t',
    steps Demo.flat_model [0; 3; 1; 0; 2] (Demo.env_grey 2) = (Ok outs, self')
    ∧ length outs = length [0; 3; 1; 0; 2]
    ∧ heap self' !! image self' = Some t'
    ∧ zeroed_from Demo.grey t'
    ∧ (sparsity Demo.grey t' ≤ length [0; 3; 1; 0; 2])%nat.
Proof.
  apply (stepping_alone_never_changes_the_image Demo.flat_model 2
           demo_classifier_ok (Demo.env_grey 2) [0; 3; 1; 0; 2] Demo.grey).
  - reflexivity.
  - split; [discriminate|]. split; simpl; repeat constructor; simpl; lia.
  - unfold total_actions. simpl. repeat constructor; lia.
  - reflexivity.
Defined.
